(** * popgenetics: a shallow embedding of [main.py]

    The script simulates one diallelic locus over discrete generations
    (selection, carrying capacity, random mating, reproduction) and then
    derives per-generation statistics.  Organisms are Python strings, the
    configuration constants are module globals, and all randomness comes
    from three library calls ([np.random.uniform], [np.random.normal] and
    Python's [random] module).  Here the constants are the fields of a
    record, the random sources are oracle tapes read through cursors, and
    Python exceptions and the unbounded [while] loop are results of an
    error monad with fuel. *)

From Stdlib Require Import ZArith QArith Qround Qabs Qminmax Lia Lqa Permutation.
From stdpp Require Import base list strings.

Open Scope Z_scope.

(** ** Module constants *)

Definition DOMINANT_ALLELE : string := "A".
Definition RECESSIVE_ALLELE : string := "a".

(** The tunable globals at the top of the script. Python ints are
    unbounded, hence [Z]; the float parameters are modelled by exact
    rationals. *)
Record Params := {
  HOM_DOM_SURV_PROB : Q;
  HET_SURV_PROB : Q;
  HOM_REC_SURV_PROB : Q;
  N_INITIAL_ORGANISMS : Z;
  N_GENERATIONS : Z;
  OFFSPRING_N_MEAN : Q;
  OFFSPRING_N_STD : Q;
  CARRYING_CAPACITY : Z
}.

(** The values written in the script. *)
Definition script_params : Params := {|
  HOM_DOM_SURV_PROB := 99 # 100;
  HET_SURV_PROB := 99 # 100;
  HOM_REC_SURV_PROB := 99 # 100;
  N_INITIAL_ORGANISMS := 100;
  N_GENERATIONS := 20;
  OFFSPRING_N_MEAN := 5 # 2;
  OFFSPRING_N_STD := 1 # 2;
  CARRYING_CAPACITY := 1000
|}.

(** ** Genotype predicates *)

Definition isHomDom (org : string) : bool :=
  String.eqb org (DOMINANT_ALLELE +:+ DOMINANT_ALLELE).

Definition isHomRec (org : string) : bool :=
  String.eqb org (RECESSIVE_ALLELE +:+ RECESSIVE_ALLELE).

Definition isHet (org : string) : bool :=
  String.eqb org (DOMINANT_ALLELE +:+ RECESSIVE_ALLELE)
  || String.eqb org (RECESSIVE_ALLELE +:+ DOMINANT_ALLELE).

(** An allele is one of the two one-character strings; a well-formed
    organism is the concatenation of two alleles. *)
Definition is_allele (a : string) : Prop :=
  a = DOMINANT_ALLELE \/ a = RECESSIVE_ALLELE.

Definition well_formed (org : string) : Prop :=
  exists a1 a2, is_allele a1 /\ is_allele a2 /\ org = a1 +:+ a2.

(** ** Exceptions, divergence and the random state *)

Inductive exn : Type :=
  | UnboundLocalError
  | IndexError
  | ZeroDivisionError
  | ValueError.

(** [OutOfFuel] stands for a [while] loop that is still running when the
    fuel is spent. *)
Inductive result (A : Type) : Type :=
  | Ok (a : A)
  | Raise (e : exn)
  | OutOfFuel.
Arguments Ok {A} a.
Arguments Raise {A} e.
Arguments OutOfFuel {A}.

#[global] Instance result_ret : MRet result := fun A a => Ok a.
#[global] Instance result_bind : MBind result := fun A B f m =>
  match m with
  | Ok a => f a
  | Raise e => Raise e
  | OutOfFuel => OutOfFuel
  end.

(** The three random sources as oracle tapes with read cursors.
    [uniform_tape] feeds [np.random.uniform()], [normal_tape] the
    standard-normal deviate behind [np.random.normal], and
    [randbits_tape] the raw integers behind Python's [random] module. *)
Record World := {
  uniform_tape : nat -> Q;
  normal_tape : nat -> Q;
  randbits_tape : nat -> nat;
  uniform_pos : nat;
  normal_pos : nat;
  randbits_pos : nat
}.

Definition advance_uniform (w : World) : World :=
  {| uniform_tape := uniform_tape w; normal_tape := normal_tape w;
     randbits_tape := randbits_tape w;
     uniform_pos := S (uniform_pos w); normal_pos := normal_pos w;
     randbits_pos := randbits_pos w |}.

Definition advance_normal (w : World) : World :=
  {| uniform_tape := uniform_tape w; normal_tape := normal_tape w;
     randbits_tape := randbits_tape w;
     uniform_pos := uniform_pos w; normal_pos := S (normal_pos w);
     randbits_pos := randbits_pos w |}.

Definition advance_randbits (w : World) : World :=
  {| uniform_tape := uniform_tape w; normal_tape := normal_tape w;
     randbits_tape := randbits_tape w;
     uniform_pos := uniform_pos w; normal_pos := normal_pos w;
     randbits_pos := S (randbits_pos w) |}.

(** Computations that draw random numbers, may raise and may diverge. *)
Definition M (A : Type) : Type := World -> result (A * World).

#[global] Instance M_ret : MRet M := fun A a w => Ok (a, w).
#[global] Instance M_bind : MBind M := fun A B f m w =>
  match m w with
  | Ok (a, w') => f a w'
  | Raise e => Raise e
  | OutOfFuel => OutOfFuel
  end.

Definition raise {A : Type} (e : exn) : M A := fun _ => Raise e.
Definition out_of_fuel {A : Type} : M A := fun _ => OutOfFuel.

(** ** Library calls *)

(** [x < y] on floats, which are compared by value. *)
Definition Qltb (x y : Q) : bool :=
  match (x ?= y)%Q with
  | Lt => true
  | _ => false
  end.

(** [np.random.uniform()] *)
Definition np_random_uniform : M Q :=
  fun w => Ok (uniform_tape w (uniform_pos w), advance_uniform w).

(** [np.random.normal(loc, scale)] rejects a negative [scale] and is
    otherwise [loc + scale * z] for a standard-normal deviate [z]. The
    sum is taken exactly: [z] stands for the deviate that yields the
    double returned, and a sum that overflows to an infinity is outside
    this model. *)
Definition np_random_normal (loc scale : Q) : M Q :=
  fun w =>
    if Qltb scale 0 then Raise ValueError
    else Ok ((loc + scale * normal_tape w (normal_pos w))%Q, advance_normal w).

(** [random._randbelow(n)] for [n > 0]. *)
Definition randbelow (n : nat) : M nat :=
  fun w => Ok ((randbits_tape w (randbits_pos w) mod n)%nat, advance_randbits w).

(** [seq[i]] for a non-negative index. *)
Definition getitem {A : Type} (seq : list A) (i : nat) : M A :=
  match seq !! i with
  | Some x => mret x
  | None => raise IndexError
  end.

(** [random.choice(seq)] *)
Definition random_choice {A : Type} (seq : list A) : M A :=
  if (length seq =? 0)%nat then raise IndexError
  else i ← randbelow (length seq); getitem seq i.

(** Python's [round] on a finite float: nearest integer, ties to even. *)
Definition py_round (x : Q) : Z :=
  let f := Qfloor x in
  match (x - inject_Z f ?= 1 # 2)%Q with
  | Lt => f
  | Gt => f + 1
  | Eq => if Z.even f then f else f + 1
  end.

(** [range(n)] *)
Definition range (n : Z) : list nat := seq 0 (Z.to_nat n).

(** [list(s)] for a string [s]: its one-character strings. *)
Fixpoint list_of_str (s : string) : list string :=
  match s with
  | EmptyString => []
  | String c rest => String c EmptyString :: list_of_str rest
  end.

(** A [for] loop over a list, threading the loop-carried state. *)
Fixpoint for_each {A St : Type} (xs : list A) (body : A -> St -> M St) (s : St) : M St :=
  match xs with
  | [] => mret s
  | x :: rest => s' ← body x s; for_each rest body s'
  end.

(** The assignment [x[i], x[j] = x[j], x[i]]. *)
Definition swap_items {A : Type} (x : list A) (i j : nat) : M (list A) :=
  xj ← getitem x j;
  xi ← getitem x i;
  mret (<[j := xi]> (<[i := xj]> x)).

(** [random.shuffle(x)]: Fisher-Yates from the last position down. *)
Definition random_shuffle {A : Type} (x : list A) : M (list A) :=
  for_each (rev (seq 1 (length x - 1)))
    (fun i x => j ← randbelow (i + 1); swap_items x i j) x.

(** The extended slices [l[::2]] and [l[1::2]]. *)
Fixpoint every_other {A : Type} (l : list A) : list A :=
  match l with
  | [] => []
  | x :: rest =>
      x :: match rest with
           | [] => []
           | _ :: rest' => every_other rest'
           end
  end.

Definition slice_step2 {A : Type} (start : nat) (l : list A) : list A :=
  every_other (drop start l).

(** ** Random genotypes *)

(** pick a random allele *)
Definition getRandomAllele : M string :=
  random_choice [DOMINANT_ALLELE; RECESSIVE_ALLELE].

(** generate a random genotype *)
Definition generateGenotype : M string :=
  a1 ← getRandomAllele;
  a2 ← getRandomAllele;
  mret (a1 +:+ a2).

(** ** The simulation *)

Section Simulation.

Variable P : Params.

(** The local [probability] of [checkSurvival] is bound only by the
    three [if] statements; reading it unbound raises. *)
Definition load_local {A : Type} (v : option A) : M A :=
  match v with
  | Some a => mret a
  | None => raise UnboundLocalError
  end.

Definition survival_probability (genotype : string) : option Q :=
  let probability := None in
  let probability := if isHomDom genotype then Some (HOM_DOM_SURV_PROB P) else probability in
  let probability := if isHet genotype then Some (HET_SURV_PROB P) else probability in
  let probability := if isHomRec genotype then Some (HOM_REC_SURV_PROB P) else probability in
  probability.

Definition checkSurvival (genotype : string) : M bool :=
  let probability := survival_probability genotype in
  u ← np_random_uniform;
  p ← load_local probability;
  if Qltb u p then mret true else mret false.

Definition howManyOffspring : M Z :=
  x ← np_random_normal (OFFSPRING_N_MEAN P) (OFFSPRING_N_STD P);
  mret (py_round x).

Definition generateOffspring (p1 p2 : string) : M string :=
  a1 ← random_choice (list_of_str p1);
  a2 ← random_choice (list_of_str p2);
  mret (a1 +:+ a2).

(** [[genotype for genotype in population if checkSurvival(genotype)]] *)
Fixpoint survival_pass (population : list string) : M (list string) :=
  match population with
  | [] => mret []
  | genotype :: rest =>
      alive ← checkSurvival genotype;
      rest' ← survival_pass rest;
      mret (if (alive : bool) then genotype :: rest' else rest')
  end.

(** [while len(CURRENT_POPULATION) > CARRYING_CAPACITY: ...] *)
Fixpoint enforce_capacity (fuel : nat) (population : list string) : M (list string) :=
  match fuel with
  | O => out_of_fuel
  | S fuel' =>
      if Z.of_nat (length population) >? CARRYING_CAPACITY P
      then population' ← survival_pass population;
           enforce_capacity fuel' population'
      else mret population
  end.

(** The shuffled index list and its two stride-2 groups. *)
Definition mating_groups (n : nat) : M (list nat * list nat) :=
  l ← random_shuffle (seq 0 n);
  mret (slice_step2 0 l, slice_step2 1 l).

(** The body of the inner [for offspringnum] loop. *)
Definition produce_offspring (population : list string) (l1 l2 : list nat)
    (pairnum : nat) (offspringnum : nat) (NEW_POPULATION : list string)
    : M (list string) :=
  i1 ← getitem l1 pairnum;
  p1 ← getitem population i1;
  i2 ← getitem l2 pairnum;
  p2 ← getitem population i2;
  child ← generateOffspring p1 p2;
  mret (NEW_POPULATION ++ [child]).

(** The body of the [for pairnum] loop. *)
Definition mate_pair (population : list string) (l1 l2 : list nat)
    (pairnum : nat) (NEW_POPULATION : list string) : M (list string) :=
  n ← howManyOffspring;
  for_each (range n) (produce_offspring population l1 l2 pairnum) NEW_POPULATION.

Definition reproduce (population : list string) (l1 l2 : list nat) : M (list string) :=
  for_each (range (Z.of_nat (min (length l1) (length l2))))
    (mate_pair population l1 l2) [].

(** The globals that the main loop updates. *)
Record SimState := {
  CURRENT_POPULATION : list string;
  GENERATIONAL_DATA : list (list string)
}.

(** One iteration of the main simulation loop. [fuel] bounds the number
    of tests of the [while] condition. *)
Definition generation (fuel : nat) (generation_num : nat) (st : SimState) : M SimState :=
  population ← survival_pass (CURRENT_POPULATION st);
  population ← enforce_capacity fuel population;
  let data := GENERATIONAL_DATA st ++ [population] in
  groups ← mating_groups (length population);
  NEW_POPULATION ← reproduce population groups.1 groups.2;
  mret {| CURRENT_POPULATION := NEW_POPULATION; GENERATIONAL_DATA := data |}.

Definition initial_state : SimState :=
  {| CURRENT_POPULATION :=
       map (fun organism => DOMINANT_ALLELE +:+ RECESSIVE_ALLELE)
           (range (N_INITIAL_ORGANISMS P));
     GENERATIONAL_DATA := [] |}.

Definition run_generations (fuel : nat) (n : Z) (st : SimState) : M SimState :=
  for_each (range n) (generation fuel) st.

Definition simulate (fuel : nat) : M SimState :=
  run_generations fuel (N_GENERATIONS P) initial_state.

End Simulation.

(** ** Statistics *)

(** The five tracker variables of the statistics loop. *)
Record Counters := {
  n_hom_dom : Z;
  n_het : Z;
  n_hom_rec : Z;
  n_dom_allele : Z;
  n_rec_allele : Z
}.

Definition zero_counters : Counters :=
  {| n_hom_dom := 0; n_het := 0; n_hom_rec := 0; n_dom_allele := 0; n_rec_allele := 0 |}.

(** The body of [for organism in generation]. *)
Definition count_organism (c : Counters) (organism : string) : Counters :=
  if isHomDom organism then
    {| n_hom_dom := n_hom_dom c + 1; n_het := n_het c; n_hom_rec := n_hom_rec c;
       n_dom_allele := n_dom_allele c + 2; n_rec_allele := n_rec_allele c |}
  else if isHomRec organism then
    {| n_hom_dom := n_hom_dom c; n_het := n_het c; n_hom_rec := n_hom_rec c + 1;
       n_dom_allele := n_dom_allele c; n_rec_allele := n_rec_allele c + 2 |}
  else if isHet organism then
    {| n_hom_dom := n_hom_dom c; n_het := n_het c + 1; n_hom_rec := n_hom_rec c;
       n_dom_allele := n_dom_allele c + 1; n_rec_allele := n_rec_allele c + 1 |}
  else c.

Definition count_generation (generation : list string) : Counters :=
  fold_left count_organism generation zero_counters.

(** The six output lists. *)
Record Series := {
  HOM_DOM_N_LIST : list Q;
  HET_N_LIST : list Q;
  HOM_REC_N_LIST : list Q;
  DOM_ALLELE_N : list Q;
  REC_ALLELE_N : list Q;
  TOTAL_N : list Z
}.

Definition empty_series : Series :=
  {| HOM_DOM_N_LIST := []; HET_N_LIST := []; HOM_REC_N_LIST := [];
     DOM_ALLELE_N := []; REC_ALLELE_N := []; TOTAL_N := [] |}.

(** Python's true division of two ints; the float quotient is modelled
    by the exact rational in lowest terms. *)
Definition truediv (a b : Z) : result Q :=
  if b =? 0 then Raise ZeroDivisionError
  else Ok (Qred (inject_Z a / inject_Z b)).

(** The totals used as denominators, after the zero guard. *)
Definition guarded_totals (c : Counters) : Z * Z :=
  let genotype_total := n_hom_dom c + n_het c + n_hom_rec c in
  let allele_total := n_dom_allele c + n_rec_allele c in
  if (genotype_total =? 0) || (allele_total =? 0) then (1, 1)
  else (genotype_total, allele_total).

(** The body of [for generation in GENERATIONAL_DATA]. *)
Definition record_generation (s : Series) (generation : list string) : result Series :=
  let c := count_generation generation in
  let '(genotype_total, allele_total) := guarded_totals c in
  hom_dom ← truediv (100 * n_hom_dom c) genotype_total;
  hom_rec ← truediv (100 * n_hom_rec c) genotype_total;
  het ← truediv (100 * n_het c) genotype_total;
  dom ← truediv (100 * n_dom_allele c) allele_total;
  rec ← truediv (100 * n_rec_allele c) allele_total;
  mret {| HOM_DOM_N_LIST := HOM_DOM_N_LIST s ++ [hom_dom];
          HET_N_LIST := HET_N_LIST s ++ [het];
          HOM_REC_N_LIST := HOM_REC_N_LIST s ++ [hom_rec];
          DOM_ALLELE_N := DOM_ALLELE_N s ++ [dom];
          REC_ALLELE_N := REC_ALLELE_N s ++ [rec];
          TOTAL_N := TOTAL_N s ++ [genotype_total] |}.

Fixpoint statistics_from (s : Series) (data : list (list string)) : result Series :=
  match data with
  | [] => mret s
  | generation :: rest => s' ← record_generation s generation; statistics_from s' rest
  end.

Definition statistics (data : list (list string)) : result Series :=
  statistics_from empty_series data.

(** ** Specification vocabulary

    The predicates, derived quantities and example inputs used to state
    and to test the properties of the simulation. *)

(** Exactly one of three tests succeeds. *)
Definition exactly_one (a b c : bool) : Prop :=
  (a = true /\ b = false /\ c = false)
  \/ (a = false /\ b = true /\ c = false)
  \/ (a = false /\ b = false /\ c = true).

(** The invariant of the counting loop. *)
Definition allele_accounting (c : Counters) : Prop :=
  2 * n_hom_dom c + n_het c = n_dom_allele c
  /\ 2 * n_hom_rec c + n_het c = n_rec_allele c.

(** The values of [genotype_total] and [allele_total] when the
    iteration for [generation] appends to the series, that is, after
    the zero guard. *)
Definition genotype_total (generation : list string) : Z :=
  (guarded_totals (count_generation generation)).1.

Definition allele_total (generation : list string) : Z :=
  (guarded_totals (count_generation generation)).2.

(** [100 * count / total] *)
Definition percentage (count total : Z) : Q :=
  Qred (inject_Z (100 * count) / inject_Z total).

(** What one iteration of the statistics loop appends. *)
Definition append_row (s : Series) (generation : list string) : Series :=
  let c := count_generation generation in
  {| HOM_DOM_N_LIST := HOM_DOM_N_LIST s ++ [percentage (n_hom_dom c) (genotype_total generation)];
     HET_N_LIST := HET_N_LIST s ++ [percentage (n_het c) (genotype_total generation)];
     HOM_REC_N_LIST := HOM_REC_N_LIST s ++ [percentage (n_hom_rec c) (genotype_total generation)];
     DOM_ALLELE_N := DOM_ALLELE_N s ++ [percentage (n_dom_allele c) (allele_total generation)];
     REC_ALLELE_N := REC_ALLELE_N s ++ [percentage (n_rec_allele c) (allele_total generation)];
     TOTAL_N := TOTAL_N s ++ [genotype_total generation] |}.

(** Every series has [n] entries. *)
Definition series_length (s : Series) (n : nat) : Prop :=
  length (HOM_DOM_N_LIST s) = n /\ length (HET_N_LIST s) = n
  /\ length (HOM_REC_N_LIST s) = n /\ length (DOM_ALLELE_N s) = n
  /\ length (REC_ALLELE_N s) = n /\ length (TOTAL_N s) = n.

(** All five percentage series read 0 at position [i]. *)
Definition zero_percentages_at (s : Series) (i : nat) : Prop :=
  HOM_DOM_N_LIST s !! i = Some 0%Q /\ HET_N_LIST s !! i = Some 0%Q
  /\ HOM_REC_N_LIST s !! i = Some 0%Q /\ DOM_ALLELE_N s !! i = Some 0%Q
  /\ REC_ALLELE_N s !! i = Some 0%Q.

(** The entries of row [i] agree in [s] and [s']. *)
Definition same_row (s s' : Series) (i : nat) : Prop :=
  HOM_DOM_N_LIST s' !! i = HOM_DOM_N_LIST s !! i
  /\ HET_N_LIST s' !! i = HET_N_LIST s !! i
  /\ HOM_REC_N_LIST s' !! i = HOM_REC_N_LIST s !! i
  /\ DOM_ALLELE_N s' !! i = DOM_ALLELE_N s !! i
  /\ REC_ALLELE_N s' !! i = REC_ALLELE_N s !! i
  /\ TOTAL_N s' !! i = TOTAL_N s !! i.

(** Row [i] of the series holds the figures of [generation]. *)
Definition row_of (s : Series) (i : nat) (generation : list string) : Prop :=
  let c := count_generation generation in
  HOM_DOM_N_LIST s !! i = Some (percentage (n_hom_dom c) (genotype_total generation))
  /\ HET_N_LIST s !! i = Some (percentage (n_het c) (genotype_total generation))
  /\ HOM_REC_N_LIST s !! i = Some (percentage (n_hom_rec c) (genotype_total generation))
  /\ DOM_ALLELE_N s !! i = Some (percentage (n_dom_allele c) (allele_total generation))
  /\ REC_ALLELE_N s !! i = Some (percentage (n_rec_allele c) (allele_total generation))
  /\ TOTAL_N s !! i = Some (genotype_total generation).

(** A small configuration and a fixed random world for examples. *)
Definition demo_params : Params := {|
  HOM_DOM_SURV_PROB := 99 # 100;
  HET_SURV_PROB := 99 # 100;
  HOM_REC_SURV_PROB := 99 # 100;
  N_INITIAL_ORGANISMS := 7;
  N_GENERATIONS := 4;
  OFFSPRING_N_MEAN := 5 # 2;
  OFFSPRING_N_STD := 1 # 2;
  CARRYING_CAPACITY := 5
|}.

(** Uniform draws alternate between 0 and 0.995. *)
Definition demo_world : World := {|
  uniform_tape := fun n => if Nat.even n then 0%Q else (995 # 1000)%Q;
  normal_tape := fun n => inject_Z (Z.of_nat n - 2);
  randbits_tape := fun n => (n * 7 + 3)%nat;
  uniform_pos := 0;
  normal_pos := 0;
  randbits_pos := 0
|}.


(** [wp E m Q w]: started in [w], the computation [m] raises only
    exceptions in [E], and if it returns, its value and final world
    satisfy [Q]. *)
Definition wp {A : Type} (E : exn -> Prop) (m : M A) (Q : A -> World -> Prop)
    (w : World) : Prop :=
  match m w with
  | Ok (a, w') => Q a w'
  | Raise e => E e
  | OutOfFuel => True
  end.

(** The exception that the offspring count of this model can raise:
    [np.random.normal] rejecting a negative standard deviation. *)
Definition config_error (P : Params) (e : exn) : Prop :=
  e = ValueError /\ (OFFSPRING_N_STD P < 0)%Q.

(** The uniform cursor moved [n] places on. *)
Definition skip_uniform (n : nat) (w : World) : World :=
  {| uniform_tape := uniform_tape w; normal_tape := normal_tape w;
     randbits_tape := randbits_tape w;
     uniform_pos := uniform_pos w + n; normal_pos := normal_pos w;
     randbits_pos := randbits_pos w |}.

(** The survivors of one pass, as a function of the draws read: the
    organism at position [i] meets the draw at [pos + i]. *)
Fixpoint survivors (P : Params) (tape : nat -> Q) (pos : nat) (population : list string) : list string :=
  match population with
  | [] => []
  | genotype :: rest =>
      match survival_probability P genotype with
      | Some p =>
          if Qltb (tape pos) p then genotype :: survivors P tape (S pos) rest
          else survivors P tape (S pos) rest
      | None => survivors P tape (S pos) rest
      end
  end.

(** [k] survival passes in a row, each over the whole population left
    by the one before. *)
Fixpoint repeat_pass (P : Params) (k : nat) (population : list string) : M (list string) :=
  match k with
  | O => mret population
  | S k' => population' ← survival_pass P population; repeat_pass P k' population'
  end.

(** The loop exits after finitely many tests of its condition. *)
Definition capacity_loop_terminates (P : Params) (population : list string) (w : World) : Prop :=
  exists fuel population' w',
    enforce_capacity P fuel population w = Ok (population', w')
    /\ Z.of_nat (length population') <= CARRYING_CAPACITY P.

(** A draw that no genotype survives. *)
Definition lethal (P : Params) (u : Q) : Prop :=
  (HOM_DOM_SURV_PROB P <= u)%Q /\ (HET_SURV_PROB P <= u)%Q /\ (HOM_REC_SURV_PROB P <= u)%Q.

(** Lethal draws keep coming on the uniform tape. *)
Definition fair_draws (P : Params) (w : World) : Prop :=
  forall n, exists m, (n <= m)%nat /\ lethal P (uniform_tape w m).

(** [np.random.uniform()] returns values in the half-open unit
    interval. *)
Definition unit_draws (w : World) : Prop :=
  forall n, (0 <= uniform_tape w n)%Q /\ (uniform_tape w n < 1)%Q.

(** The least draw that is lethal under [P]. *)
Definition least_lethal (P : Params) : Q :=
  Qmax 0 (Qmax (HOM_DOM_SURV_PROB P) (Qmax (HET_SURV_PROB P) (HOM_REC_SURV_PROB P))).

(** Every uniform draw is 0.995: at or above the survival probabilities
    of [demo_params]. *)
Definition harsh_world : World := {|
  uniform_tape := fun _ => (995 # 1000)%Q;
  normal_tape := fun _ => 0%Q;
  randbits_tape := fun _ => 0%nat;
  uniform_pos := 0;
  normal_pos := 0;
  randbits_pos := 0
|}.

(** The script's parameters with a carrying capacity below zero. *)
Definition negative_capacity_params : Params := {|
  HOM_DOM_SURV_PROB := 99 # 100;
  HET_SURV_PROB := 99 # 100;
  HOM_REC_SURV_PROB := 99 # 100;
  N_INITIAL_ORGANISMS := 100;
  N_GENERATIONS := 20;
  OFFSPRING_N_MEAN := 5 # 2;
  OFFSPRING_N_STD := 1 # 2;
  CARRYING_CAPACITY := -1
|}.

(** Every uniform draw is 0.0. *)
Definition zero_draw_world : World := {|
  uniform_tape := fun _ => 0%Q;
  normal_tape := fun _ => 0%Q;
  randbits_tape := fun _ => 0%nat;
  uniform_pos := 0;
  normal_pos := 0;
  randbits_pos := 0
|}.

(** The invariant of the main loop. *)
Definition state_well_formed (st : SimState) : Prop :=
  Forall well_formed (CURRENT_POPULATION st)
  /\ Forall (Forall well_formed) (GENERATIONAL_DATA st).

(** [c'] is [c] with exactly one genotype counter incremented. *)
Definition counted_once (c c' : Counters) : Prop :=
  (n_hom_dom c' = n_hom_dom c + 1 /\ n_het c' = n_het c /\ n_hom_rec c' = n_hom_rec c)
  \/ (n_hom_dom c' = n_hom_dom c /\ n_het c' = n_het c + 1 /\ n_hom_rec c' = n_hom_rec c)
  \/ (n_hom_dom c' = n_hom_dom c /\ n_het c' = n_het c /\ n_hom_rec c' = n_hom_rec c + 1).

(** The number of organisms the statistics loop classified. *)
Definition classified (c : Counters) : Z := n_hom_dom c + n_het c + n_hom_rec c.

(** The pairs that mate: the two groups taken position by position, up
    to the end of the shorter one. *)
Definition mating_pairs (l1 l2 : list nat) : list (nat * nat) := zip l1 l2.

(** What the pair loop does for the pair of population indices
    [(i1, i2)]: one offspring count, then that many children of the two
    organisms at these indices. *)
Definition mate_indices (P : Params) (population : list string) (pair : nat * nat)
    (NEW_POPULATION : list string) : M (list string) :=
  n ← howManyOffspring P;
  for_each (range n)
    (fun (_ : nat) NEW =>
       p1 ← getitem population pair.1;
       p2 ← getitem population pair.2;
       child ← generateOffspring p1 p2;
       mret (NEW ++ [child]))
    NEW_POPULATION.

(** A world whose first raw random integer is [i] and whose later ones
    are [j]. *)
Definition bits_world (i j : nat) : World := {|
  uniform_tape := fun _ => 0%Q;
  normal_tape := fun _ => 0%Q;
  randbits_tape := fun n => match n with O => i | S _ => j end;
  uniform_pos := 0;
  normal_pos := 0;
  randbits_pos := 0
|}.

(** The position of an allele in the list [[DOMINANT_ALLELE;
    RECESSIVE_ALLELE]]. *)
Definition allele_index (a : string) : nat :=
  if String.eqb a DOMINANT_ALLELE then 0%nat else 1%nat.

(** The script's parameters with every survival probability at 1 and
    room for a single organism. *)
Definition certain_params : Params := {|
  HOM_DOM_SURV_PROB := 1;
  HET_SURV_PROB := 1;
  HOM_REC_SURV_PROB := 1;
  N_INITIAL_ORGANISMS := 2;
  N_GENERATIONS := 1;
  OFFSPRING_N_MEAN := 5 # 2;
  OFFSPRING_N_STD := 1 # 2;
  CARRYING_CAPACITY := 1
|}.

(** The script's parameters with the offspring count held constant at
    [round(3.0)] and no generation to run. *)
Definition constant_params : Params := {|
  HOM_DOM_SURV_PROB := 99 # 100;
  HET_SURV_PROB := 99 # 100;
  HOM_REC_SURV_PROB := 99 # 100;
  N_INITIAL_ORGANISMS := 3;
  N_GENERATIONS := 0;
  OFFSPRING_N_MEAN := 3;
  OFFSPRING_N_STD := 0;
  CARRYING_CAPACITY := 1000
|}.

(** What every step of reproduction keeps: a well-formed new population
    and the uniform tape of [w0]. *)
Definition reproduction_invariant (w0 : World) (NEW : list string) (w : World) : Prop :=
  Forall well_formed NEW /\ uniform_tape w = uniform_tape w0.

(** The statistics loop has a counter for the organism. *)
Definition classifiable (organism : string) : bool :=
  isHomDom organism || isHet organism || isHomRec organism.

(** Every organism of the population is homozygous for allele [a]. *)
Definition fixed_for (a : string) (population : list string) : Prop :=
  Forall (fun organism => organism = a +:+ a) population.

(** The figures that one generation contributes to the six series. *)
Record Row := {
  row_hom_dom : Q;
  row_het : Q;
  row_hom_rec : Q;
  row_dom_allele : Q;
  row_rec_allele : Q;
  row_total : Z
}.

(** Entry [i] of each of the six series, when all six have one. *)
Definition series_row (s : Series) (i : nat) : option Row :=
  match HOM_DOM_N_LIST s !! i, HET_N_LIST s !! i, HOM_REC_N_LIST s !! i,
        DOM_ALLELE_N s !! i, REC_ALLELE_N s !! i, TOTAL_N s !! i with
  | Some hd, Some het, Some hr, Some dom, Some rec, Some tot =>
      Some {| row_hom_dom := hd; row_het := het; row_hom_rec := hr;
              row_dom_allele := dom; row_rec_allele := rec; row_total := tot |}
  | _, _, _, _, _, _ => None
  end.

(** ** Genotype classification *)

Lemma well_formed_cases org :
  well_formed org <-> org = "AA" \/ org = "Aa" \/ org = "aA" \/ org = "aa".
Proof.
  split.
  - intros (a1 & a2 & [-> | ->] & [-> | ->] & ->); cbn; auto.
  - unfold well_formed, is_allele, DOMINANT_ALLELE, RECESSIVE_ALLELE.
    intros [-> | [-> | [-> | ->]]];
      [ exists "A", "A" | exists "A", "a" | exists "a", "A" | exists "a", "a" ];
      auto.
Qed.

(** C5: a genotype made of two alleles satisfies exactly one of
    [isHomDom], [isHet] and [isHomRec]. *)
Theorem genotype_partition (a1 a2 : string) :
  is_allele a1 -> is_allele a2 ->
  exactly_one (isHomDom (a1 +:+ a2)) (isHet (a1 +:+ a2)) (isHomRec (a1 +:+ a2)).
Proof.
  intros [-> | ->] [-> | ->]; unfold exactly_one; cbn; tauto.
Qed.

Lemma genotype_partition_witness :
  exactly_one (isHomDom "aA") (isHet "aA") (isHomRec "aA").
Proof.
  apply (genotype_partition "a" "A"); [right | left]; reflexivity.
Defined.

Lemma well_formed_exactly_one org :
  well_formed org -> exactly_one (isHomDom org) (isHet org) (isHomRec org).
Proof.
  intros (a1 & a2 & [-> | ->] & [-> | ->] & ->); unfold exactly_one; cbn; tauto.
Qed.

(** ** Counting *)

Lemma count_organism_accounting c organism :
  allele_accounting c -> allele_accounting (count_organism c organism).
Proof.
  unfold allele_accounting, count_organism. intros [Hd Hr].
  destruct (isHomDom organism); [cbn; lia |].
  destruct (isHomRec organism); [cbn; lia |].
  destruct (isHet organism); cbn; lia.
Qed.

Lemma fold_count_accounting generation : forall c,
  allele_accounting c -> allele_accounting (fold_left count_organism generation c).
Proof.
  induction generation as [| organism rest IH]; intros c Hc; cbn; [assumption |].
  apply IH, count_organism_accounting, Hc.
Qed.

(** C6: in every generation the allele counters agree with the genotype
    counters: twice the homozygotes plus the heterozygotes. *)
Theorem allele_accounting_holds (generation : list string) :
  2 * n_hom_dom (count_generation generation) + n_het (count_generation generation)
    = n_dom_allele (count_generation generation)
  /\ 2 * n_hom_rec (count_generation generation) + n_het (count_generation generation)
    = n_rec_allele (count_generation generation).
Proof.
  apply (fold_count_accounting generation zero_counters).
  split; reflexivity.
Qed.

(** ** The output series *)

Lemma guarded_totals_nonzero c :
  (guarded_totals c).1 <> 0 /\ (guarded_totals c).2 <> 0.
Proof.
  unfold guarded_totals.
  destruct (n_hom_dom c + n_het c + n_hom_rec c =? 0) eqn:Hg; cbn; [lia |].
  destruct (n_dom_allele c + n_rec_allele c =? 0) eqn:Ha; cbn; lia.
Qed.

Lemma truediv_percentage count total :
  total <> 0 -> truediv (100 * count) total = Ok (percentage count total).
Proof.
  intros Hne. unfold truediv, percentage.
  destruct (total =? 0) eqn:Hz; [lia | reflexivity].
Qed.

Lemma record_generation_ok s generation :
  record_generation s generation = Ok (append_row s generation).
Proof.
  unfold record_generation, append_row, genotype_total, allele_total.
  destruct (guarded_totals_nonzero (count_generation generation)) as [Hg Ha].
  destruct (guarded_totals (count_generation generation)) as [gt at_] eqn:Htot.
  cbn [fst snd] in *.
  rewrite !truediv_percentage by assumption. reflexivity.
Qed.

Lemma statistics_from_ok data : forall s,
  statistics_from s data = Ok (fold_left append_row data s).
Proof.
  induction data as [| generation rest IH]; intros s; cbn [statistics_from fold_left].
  - reflexivity.
  - rewrite record_generation_ok. cbn. apply IH.
Qed.

Lemma append_row_length s generation n :
  series_length s n -> series_length (append_row s generation) (S n).
Proof.
  unfold series_length, append_row; cbn.
  intros (H1 & H2 & H3 & H4 & H5 & H6).
  rewrite !length_app; cbn. lia.
Qed.

Lemma append_row_same s generation n i :
  series_length s n -> (i < n)%nat -> same_row s (append_row s generation) i.
Proof.
  unfold series_length, same_row, append_row; cbn.
  intros (H1 & H2 & H3 & H4 & H5 & H6) Hi.
  rewrite !lookup_app_l by lia. tauto.
Qed.

Lemma fold_append_row_length data : forall s n,
  series_length s n -> series_length (fold_left append_row data s) (n + length data).
Proof.
  induction data as [| generation rest IH]; intros s n Hs; cbn [fold_left length].
  - rewrite Nat.add_0_r. exact Hs.
  - replace (n + S (length rest))%nat with (S n + length rest)%nat by lia.
    apply IH, append_row_length, Hs.
Qed.

Lemma fold_append_row_same data : forall s n i,
  series_length s n -> (i < n)%nat -> same_row s (fold_left append_row data s) i.
Proof.
  induction data as [| generation rest IH]; intros s n i Hs Hi; cbn [fold_left].
  - unfold same_row; tauto.
  - pose proof (append_row_same s generation n i Hs Hi) as Hrow.
    pose proof (IH (append_row s generation) (S n) i
                  (append_row_length s generation n Hs) ltac:(lia)) as Hrest.
    unfold same_row in *. intuition congruence.
Qed.

Lemma append_row_new s generation n :
  series_length s n -> row_of (append_row s generation) n generation.
Proof.
  unfold series_length, row_of, append_row; cbn.
  intros (H1 & H2 & H3 & H4 & H5 & H6).
  rewrite !lookup_app_r by lia.
  rewrite H1, H2, H3, H4, H5, H6, Nat.sub_diag. cbn. tauto.
Qed.

Lemma fold_append_row_at data : forall s n i generation,
  series_length s n -> data !! i = Some generation ->
  row_of (fold_left append_row data s) (n + i) generation.
Proof.
  induction data as [| g rest IH]; intros s n i generation Hs Hi; [discriminate |].
  cbn [fold_left]. destruct i as [| i].
  - cbn in Hi. injection Hi as ->. rewrite Nat.add_0_r.
    pose proof (append_row_new s generation n Hs) as Hnew.
    pose proof (fold_append_row_same rest (append_row s generation) (S n) n
                  (append_row_length s generation n Hs) ltac:(lia)) as Hsame.
    unfold row_of, same_row in *. cbn zeta in *. intuition congruence.
  - cbn in Hi. replace (n + S i)%nat with (S n + i)%nat by lia.
    apply IH; [apply append_row_length, Hs | exact Hi].
Qed.

Lemma empty_series_length : series_length empty_series 0.
Proof. unfold series_length; cbn; tauto. Qed.

Lemma statistics_ok data :
  statistics data = Ok (fold_left append_row data empty_series).
Proof. apply statistics_from_ok. Qed.

(** ** Reasoning about monadic code *)

Lemma bind_Ok {A B : Type} (m : M A) (f : A -> M B) w r :
  (x ← m; f x) w = Ok r <-> exists a w1, m w = Ok (a, w1) /\ f a w1 = Ok r.
Proof.
  unfold mbind, M_bind. split.
  - destruct (m w) as [[a w1] | e |]; [eauto | discriminate | discriminate].
  - intros (a & w1 & -> & Hf). exact Hf.
Qed.

Lemma ret_Ok {A : Type} (a : A) w r : mret (M := M) a w = Ok r <-> r = (a, w).
Proof. unfold mret, M_ret. split; [intros [= <-] | intros ->]; reflexivity. Qed.

(** Splits a successful run of a sequence of binds into its steps. *)
Ltac bind_inv H :=
  repeat match type of H with
  | mbind _ _ _ = Ok _ =>
      let a := fresh "a" in let w := fresh "w" in
      let H1 := fresh "Hstep" in
      apply bind_Ok in H; destruct H as (a & w & H1 & H)
  end.

(** A loop invariant indexed by the number of completed iterations. *)
Lemma for_each_invariant {A St : Type} (I : nat -> St -> World -> Prop)
    (body : A -> St -> M St) (xs : list A) : forall k s w s' w',
  (forall i x s1 w1 s2 w2,
      xs !! i = Some x -> I (k + i)%nat s1 w1 -> body x s1 w1 = Ok (s2, w2) ->
      I (S (k + i)%nat) s2 w2) ->
  I k s w ->
  for_each xs body s w = Ok (s', w') ->
  I (k + length xs)%nat s' w'.
Proof.
  induction xs as [| x rest IH]; intros k s w s' w' Hbody Hinit Hrun; cbn in *.
  - apply ret_Ok in Hrun. injection Hrun as -> ->. rewrite Nat.add_0_r. exact Hinit.
  - apply bind_Ok in Hrun. destruct Hrun as (s1 & w1 & Hx & Hrun).
    replace (k + S (length rest))%nat with (S k + length rest)%nat by lia.
    apply (IH (S k) s1 w1 s' w'); [| | exact Hrun].
    + intros i y s2 w2 s3 w3 Hy HI Hb.
      replace (S k + i)%nat with (k + S i)%nat in * by lia.
      apply (Hbody (S i) y s2 w2 s3 w3); assumption.
    + specialize (Hbody 0%nat x s w s1 w1). rewrite Nat.add_0_r in Hbody.
      apply Hbody; [reflexivity | exact Hinit | exact Hx].
Qed.

Lemma range_length n : length (range n) = Z.to_nat n.
Proof. unfold range. apply length_seq. Qed.

(** Every iteration of the main loop appends one record to the history. *)
Lemma generation_history P fuel num st w st' w' :
  generation P fuel num st w = Ok (st', w') ->
  exists population,
    GENERATIONAL_DATA st' = GENERATIONAL_DATA st ++ [population].
Proof.
  unfold generation. intros H. bind_inv H.
  apply ret_Ok in H. injection H as -> ->. cbn. eauto.
Qed.

Lemma run_generations_history_length P fuel n st w st' w' :
  run_generations P fuel n st w = Ok (st', w') ->
  length (GENERATIONAL_DATA st') = (length (GENERATIONAL_DATA st) + Z.to_nat n)%nat.
Proof.
  unfold run_generations. intros Hrun. rewrite <- (range_length n).
  refine (for_each_invariant
            (fun i s _ => length (GENERATIONAL_DATA s) = i) _ _ _ _ _ _ _
            _ eq_refl Hrun).
  intros i x s1 w1 s2 w2 _ Hlen Hgen.
  apply generation_history in Hgen as [population ->].
  rewrite length_app; cbn. lia.
Qed.

(** C4: the statistics loop never divides by zero and appends one entry
    to every series per recorded generation, so after a completed run
    each series has [N_GENERATIONS] entries; the five percentage entries
    of an extinct generation are all 0. *)
Theorem percentage_series_total :
  (forall data : list (list string),
      exists s, statistics data = Ok s
        /\ series_length s (length data)
        /\ forall i, data !! i = Some [] -> zero_percentages_at s i)
  /\ (forall P fuel w st w',
        simulate P fuel w = Ok (st, w') ->
        exists s, statistics (GENERATIONAL_DATA st) = Ok s
          /\ series_length s (Z.to_nat (N_GENERATIONS P))).
Proof.
  assert (Hall : forall data : list (list string),
      exists s, statistics data = Ok s
        /\ series_length s (length data)
        /\ forall i, data !! i = Some [] -> zero_percentages_at s i).
  { intros data. exists (fold_left append_row data empty_series).
    split; [apply statistics_ok |]. split.
    - apply (fold_append_row_length data empty_series 0), empty_series_length.
    - intros i Hi.
      pose proof (fold_append_row_at data empty_series 0 i [] empty_series_length Hi) as Hrow.
      unfold row_of, zero_percentages_at in *. cbn in Hrow. tauto. }
  split; [exact Hall |].
  intros P fuel w st w' Hrun.
  destruct (Hall (GENERATIONAL_DATA st)) as (s & Hs & Hlen & _).
  exists s. split; [exact Hs |].
  apply run_generations_history_length in Hrun. cbn in Hrun.
  rewrite <- Hrun. exact Hlen.
Qed.

Lemma percentage_series_total_witness :
  (exists s, statistics [["Aa"]; []] = Ok s /\ zero_percentages_at s 1)
  /\ match simulate demo_params 10 demo_world with
     | Ok (st, _) =>
         exists s, statistics (GENERATIONAL_DATA st) = Ok s /\ series_length s 4
     | _ => False
     end.
Proof.
  split.
  - destruct (proj1 percentage_series_total [["Aa"]; []]) as (s & Hs & _ & Hzero).
    exists s. split; [exact Hs | apply Hzero; reflexivity].
  - pose proof (proj2 percentage_series_total demo_params 10%nat demo_world) as H.
    destruct (simulate demo_params 10 demo_world) as [[st w'] | e |] eqn:E.
    + apply (H st w' eq_refl).
    + vm_compute in E. discriminate E.
    + vm_compute in E. discriminate E.
Defined.

(** C1: on a history whose second generation is extinct the script
    records a total of 1 for it, the same figure as for the first
    generation, which has one survivor. *)
Theorem extinct_generation_total_recorded_as_one :
  statistics [["Aa"]; []]
  = Ok {| HOM_DOM_N_LIST := [0%Q; 0%Q];
          HET_N_LIST := [100%Q; 0%Q];
          HOM_REC_N_LIST := [0%Q; 0%Q];
          DOM_ALLELE_N := [50%Q; 0%Q];
          REC_ALLELE_N := [50%Q; 0%Q];
          TOTAL_N := [1; 1] |}.
Proof. vm_compute. reflexivity. Qed.

(** The same holds wherever an extinct generation sits in the history. *)
Lemma extinct_total_is_one (data : list (list string)) i :
  data !! i = Some [] ->
  exists s, statistics data = Ok s /\ TOTAL_N s !! i = Some 1.
Proof.
  intros Hi. exists (fold_left append_row data empty_series).
  split; [apply statistics_ok |].
  pose proof (fold_append_row_at data empty_series 0 i [] empty_series_length Hi) as Hrow.
  unfold row_of in Hrow. cbn in Hrow. tauto.
Qed.

(** ** Offspring counts *)

Lemma range_nonpositive n : n <= 0 -> range n = [].
Proof. intros Hn. unfold range. replace (Z.to_nat n) with 0%nat by lia. reflexivity. Qed.

Lemma Qltb_false u p : (p <= u)%Q -> Qltb u p = false.
Proof.
  intros Hle. unfold Qltb. destruct (u ?= p)%Q eqn:Hcmp; try reflexivity.
  apply Qlt_alt in Hcmp. lra.
Qed.




(** ** Shuffling *)

(** A loop whose body succeeds and keeps [I] wherever [I] holds runs to
    completion and keeps [I]. *)
Lemma for_each_total {A St : Type} (I : St -> World -> Prop)
    (body : A -> St -> M St) (xs : list A) : forall s w,
  (forall x s1 w1, x ∈ xs -> I s1 w1 ->
      exists s2 w2, body x s1 w1 = Ok (s2, w2) /\ I s2 w2) ->
  I s w ->
  exists s' w', for_each xs body s w = Ok (s', w') /\ I s' w'.
Proof.
  induction xs as [| x rest IH]; intros s w Hbody Hinit; cbn.
  - exists s, w. split; [reflexivity | exact Hinit].
  - destruct (Hbody x s w ltac:(left) Hinit) as (s1 & w1 & Hx & HI).
    destruct (IH s1 w1) as (s' & w' & Hrun & HI'); [| exact HI |].
    + intros y s2 w2 Hy. apply Hbody. right. exact Hy.
    + exists s', w'. split; [| exact HI'].
      apply bind_Ok. exists s1, w1. split; assumption.
Qed.

Lemma insert_head_perm {A : Type} (l : list A) : forall j x y,
  l !! j = Some y -> y :: <[j := x]> l ≡ₚ x :: l.
Proof.
  induction l as [| a l IH]; intros j x y Hj; [discriminate |].
  destruct j as [| j]; cbn in *.
  - injection Hj as ->. apply perm_swap.
  - rewrite (perm_swap a y), (IH j x y Hj). apply perm_swap.
Qed.

(** Exchanging two items of a list permutes it. *)
Lemma swap_perm {A : Type} (l : list A) : forall i j xi xj,
  l !! i = Some xi -> l !! j = Some xj ->
  <[j := xi]> (<[i := xj]> l) ≡ₚ l.
Proof.
  induction l as [| a l IH]; intros i j xi xj Hi Hj; [discriminate |].
  destruct i as [| i], j as [| j]; cbn in *.
  - injection Hi as ->. reflexivity.
  - injection Hi as ->. apply insert_head_perm. exact Hj.
  - injection Hj as ->. apply insert_head_perm. exact Hi.
  - f_equiv. apply (IH i j xi xj); assumption.
Qed.

Lemma swap_items_ok {A : Type} (x : list A) i j w :
  (i < length x)%nat -> (j < length x)%nat ->
  exists x', swap_items x i j w = Ok (x', w) /\ x' ≡ₚ x.
Proof.
  intros Hi Hj.
  destruct (lookup_lt_is_Some_2 x i Hi) as [xi Hxi].
  destruct (lookup_lt_is_Some_2 x j Hj) as [xj Hxj].
  exists (<[j := xi]> (<[i := xj]> x)). split.
  - unfold swap_items, getitem, mbind, M_bind. rewrite Hxj, Hxi. reflexivity.
  - apply (swap_perm x i j xi xj); assumption.
Qed.

(** [random.shuffle] never fails and returns a permutation of its
    argument; it reads only the tape of raw random integers. *)
Lemma random_shuffle_perm {A : Type} (x : list A) w :
  exists x' w', random_shuffle x w = Ok (x', w') /\ x' ≡ₚ x.
Proof.
  unfold random_shuffle.
  apply (for_each_total (fun x' _ => x' ≡ₚ x)); [| reflexivity].
  intros i x1 w1 Hi Hperm.
  apply list_elem_of_In, in_rev, in_seq in Hi.
  pose proof (Permutation_length Hperm) as Hlen.
  assert (Hj : (randbits_tape w1 (randbits_pos w1) mod (i + 1) < i + 1)%nat)
    by (apply Nat.mod_upper_bound; lia).
  destruct (swap_items_ok x1 i (randbits_tape w1 (randbits_pos w1) mod (i + 1))
              (advance_randbits w1)) as (x2 & Hswap & Hperm2); [lia | lia |].
  exists x2, (advance_randbits w1). split.
  - apply bind_Ok. eexists _, _. split; [reflexivity | exact Hswap].
  - rewrite Hperm2. exact Hperm.
Qed.

(** ** Stride-2 slices *)

Lemma list_pair_ind {A : Type} (Q : list A -> Prop) :
  Q [] -> (forall x, Q [x]) -> (forall x y l, Q l -> Q (x :: y :: l)) ->
  forall l, Q l.
Proof.
  intros Hnil Hone Hstep.
  assert (H : forall l, Q l /\ forall x, Q (x :: l)).
  { induction l as [| y l [IH1 IH2]]; split; auto. }
  intros l. apply H.
Qed.

Lemma every_other_cons {A : Type} (x : A) l :
  every_other (x :: l) = x :: every_other (drop 1 l).
Proof. destruct l; reflexivity. Qed.

Lemma every_other_lookup {A : Type} (l : list A) : forall i,
  every_other l !! i = l !! (2 * i)%nat.
Proof.
  induction l as [| x | x y l IH] using list_pair_ind; intros i.
  - reflexivity.
  - destruct i; reflexivity.
  - destruct i as [| i]; [reflexivity |].
    replace (2 * S i)%nat with (S (S (2 * i))) by lia. cbn. apply IH.
Qed.

Lemma every_other_length {A : Type} (l : list A) :
  length (every_other l) = Nat.div2 (S (length l)).
Proof.
  induction l as [| x | x y l IH] using list_pair_ind; [reflexivity .. |].
  cbn [every_other length]. rewrite IH. reflexivity.
Qed.

Lemma every_other_split {A : Type} (l : list A) :
  l ≡ₚ every_other l ++ every_other (drop 1 l).
Proof.
  induction l as [| x | x y l IH] using list_pair_ind; [reflexivity .. |].
  change (drop 1 (x :: y :: l)) with (y :: l).
  rewrite (every_other_cons y l). cbn [every_other app].
  f_equiv. rewrite <- Permutation_middle. f_equiv. exact IH.
Qed.

Lemma slice_step2_0 {A : Type} (l : list A) : slice_step2 0 l = every_other l.
Proof. reflexivity. Qed.

Lemma slice_step2_1_lookup {A : Type} (l : list A) i :
  slice_step2 1 l !! i = l !! (2 * i + 1)%nat.
Proof.
  unfold slice_step2. rewrite every_other_lookup, lookup_drop. f_equal. lia.
Qed.

Lemma slice_step2_1_length {A : Type} (l : list A) :
  length (slice_step2 1 l) = Nat.div2 (length l).
Proof.
  unfold slice_step2. rewrite every_other_length, length_drop.
  destruct l as [| x l]; [reflexivity |]. cbn [length].
  replace (S (S (length l) - 1)) with (S (length l)) by lia. reflexivity.
Qed.

(** ** Mating *)

Lemma div2_succ n : Nat.div2 (S n) = (Nat.div2 n + n mod 2)%nat.
Proof.
  rewrite !Nat.div2_div.
  pose proof (Nat.div_mod_eq n 2). pose proof (Nat.div_mod_eq (S n) 2).
  pose proof (Nat.mod_upper_bound n 2). pose proof (Nat.mod_upper_bound (S n) 2).
  lia.
Qed.

Lemma for_each_ext {A St : Type} (f g : A -> St -> M St) (xs : list A) : forall s w,
  (forall x s1 w1, f x s1 w1 = g x s1 w1) ->
  for_each xs f s w = for_each xs g s w.
Proof.
  induction xs as [| x rest IH]; intros s w Hfg; cbn [for_each]; [reflexivity |].
  unfold mbind, M_bind. rewrite Hfg.
  destruct (g x s w) as [[s1 w1] | e |]; [apply IH, Hfg | reflexivity | reflexivity].
Qed.

Lemma bind_ext {A B : Type} (m : M A) (f g : A -> M B) w :
  (forall a w', f a w' = g a w') -> (x ← m; f x) w = (x ← m; g x) w.
Proof.
  intros Hfg. unfold mbind, M_bind.
  destruct (m w) as [[a w'] | e |]; [apply Hfg | reflexivity | reflexivity].
Qed.

(** A loop over the positions of a list is a loop over its items. *)
Lemma for_each_positions {A St : Type} (f : nat -> St -> M St) (g : A -> St -> M St)
    (xs : list A) : forall a s w,
  (forall i x s1 w1, xs !! i = Some x -> f (a + i)%nat s1 w1 = g x s1 w1) ->
  for_each (seq a (length xs)) f s w = for_each xs g s w.
Proof.
  induction xs as [| x rest IH]; intros a s w Hfg; cbn [length seq for_each]; [reflexivity |].
  unfold mbind, M_bind.
  rewrite <- (Hfg 0%nat x s w eq_refl), Nat.add_0_r.
  destruct (f a s w) as [[s1 w1] | e |]; [| reflexivity | reflexivity].
  apply IH. intros i y s2 w2 Hy.
  replace (S a + i)%nat with (a + S i)%nat by lia. apply Hfg. exact Hy.
Qed.

(** The pair loop of the script mates the organisms at the indices
    [l1[k]] and [l2[k]], for each position [k] that both groups have, in
    order. *)
Lemma reproduce_pairs P population l1 l2 w :
  reproduce P population l1 l2 w
  = for_each (mating_pairs l1 l2) (mate_indices P population) [] w.
Proof.
  unfold reproduce, range, mating_pairs. rewrite Nat2Z.id.
  rewrite <- (length_zip_with pair l1 l2).
  apply for_each_positions.
  intros k [i1 i2] NEW w1 Hk.
  apply lookup_zip_with_Some in Hk as (x & y & Hxy & Hx & Hy).
  injection Hxy as <- <-.
  cbn [Nat.add]. unfold mate_pair, mate_indices. apply bind_ext. intros n w2.
  apply for_each_ext. intros offspringnum NEW1 w3.
  unfold produce_offspring, mbind, M_bind, getitem. rewrite Hx, Hy. reflexivity.
Qed.

Lemma zip_fst_take {A B : Type} (l1 : list A) : forall (l2 : list B),
  (zip l1 l2).*1 = take (min (length l1) (length l2)) l1.
Proof.
  induction l1 as [| x l1 IH]; intros [| y l2]; cbn; [reflexivity .. |].
  f_equal. apply IH.
Qed.

Lemma zip_snd_take {A B : Type} (l1 : list A) : forall (l2 : list B),
  (zip l1 l2).*2 = take (min (length l1) (length l2)) l2.
Proof.
  induction l1 as [| x l1 IH]; intros [| y l2]; cbn; [reflexivity .. |].
  f_equal. apply IH.
Qed.

(** C8: the shuffled index list is a permutation of the indices of the
    population; its even and odd positions form the two groups; the pair
    loop mates the organisms at [l1[k]] and [l2[k]] for each position
    [k] below [min(len(l1), len(l2))], which makes [n / 2] pairs; the
    paired indices are pairwise distinct, and together with the
    [n mod 2] left-over indices they are exactly the indices of the
    population. *)
Theorem mating_pairs_formed (P : Params) (population : list string) (w : World) :
  exists l l1 l2 w',
    random_shuffle (seq 0 (length population)) w = Ok (l, w')
    /\ mating_groups (length population) w = Ok ((l1, l2), w')
    /\ l ≡ₚ seq 0 (length population)
    /\ (forall i, l1 !! i = l !! (2 * i)%nat)
    /\ (forall i, l2 !! i = l !! (2 * i + 1)%nat)
    /\ (forall w1,
          reproduce P population l1 l2 w1
          = for_each (mating_pairs l1 l2) (mate_indices P population) [] w1)
    /\ length (mating_pairs l1 l2) = (length population / 2)%nat
    /\ let pairs := min (length l1) (length l2) in
       pairs = (length population / 2)%nat
       /\ length (range (Z.of_nat pairs)) = (length population / 2)%nat
       /\ (mating_pairs l1 l2).*1 = take pairs l1
       /\ (mating_pairs l1 l2).*2 = take pairs l2
       /\ NoDup (take pairs l1 ++ take pairs l2)
       /\ take pairs l1 ++ take pairs l2 ++ drop pairs l1 ≡ₚ seq 0 (length population)
       /\ length (drop pairs l1) = (length population mod 2)%nat.
Proof.
  destruct (random_shuffle_perm (seq 0 (length population)) w) as (l & w' & Hshuffle & Hperm).
  exists l, (slice_step2 0 l), (slice_step2 1 l), w'.
  pose proof (Permutation_length Hperm) as Hlen. rewrite length_seq in Hlen.
  pose proof (every_other_length l) as Hl1. pose proof (slice_step2_1_length l) as Hl2.
  rewrite Hlen in Hl1, Hl2. rewrite div2_succ in Hl1. rewrite Nat.div2_div in Hl1, Hl2.
  assert (Hmin : min (length (slice_step2 0 l)) (length (slice_step2 1 l))
                 = (length population / 2)%nat).
  { rewrite slice_step2_0. lia. }
  assert (Hall : take (length population / 2) (slice_step2 0 l)
                   ++ take (length population / 2) (slice_step2 1 l)
                   ++ drop (length population / 2) (slice_step2 0 l)
                 ≡ₚ seq 0 (length population)).
  { rewrite (take_ge (slice_step2 1 l)) by lia.
    rewrite (Permutation_app_comm (slice_step2 1 l)), app_assoc, take_drop.
    rewrite <- Hperm. symmetry. apply every_other_split. }
  split; [exact Hshuffle |]. split.
  { unfold mating_groups. apply bind_Ok. exists l, w'. split; [exact Hshuffle | reflexivity]. }
  split; [exact Hperm |].
  split; [intros i; apply every_other_lookup |].
  split; [intros i; apply slice_step2_1_lookup |].
  split; [intros w1; apply reproduce_pairs |].
  split; [unfold mating_pairs; rewrite length_zip_with; exact Hmin |].
  cbn zeta. unfold mating_pairs. rewrite zip_fst_take, zip_snd_take, !Hmin.
  split; [reflexivity |].
  split; [rewrite range_length; lia |].
  split; [reflexivity |]. split; [reflexivity |].
  split.
  - assert (Hnodup : NoDup (seq 0 (length population))) by apply NoDup_seq.
    rewrite <- Hall, app_assoc in Hnodup.
    apply NoDup_app in Hnodup. tauto.
  - split; [exact Hall |].
    rewrite length_drop, slice_step2_0. lia.
Qed.

(** ** Partial-correctness reasoning *)

Section WeakestPrecondition.

Variable E : exn -> Prop.

Lemma wp_ret {A : Type} (a : A) (Q : A -> World -> Prop) w :
  Q a w -> wp E (mret a) Q w.
Proof. intros H. exact H. Qed.

Lemma wp_bind {A B : Type} (m : M A) (f : A -> M B) (Q : B -> World -> Prop) w :
  wp E m (fun a w' => wp E (f a) Q w') w -> wp E (x ← m; f x) Q w.
Proof.
  unfold wp, mbind, M_bind. destruct (m w) as [[a w'] | e |]; auto.
Qed.

Lemma wp_mono {A : Type} (m : M A) (Q1 Q2 : A -> World -> Prop) w :
  (forall a w', Q1 a w' -> Q2 a w') -> wp E m Q1 w -> wp E m Q2 w.
Proof.
  unfold wp. intros Himp. destruct (m w) as [[a w'] | e |]; auto.
Qed.

Lemma wp_Ok {A : Type} (m : M A) (Q : A -> World -> Prop) w a w' :
  wp E m Q w -> m w = Ok (a, w') -> Q a w'.
Proof. unfold wp. intros H Hrun. rewrite Hrun in H. exact H. Qed.

Lemma wp_Raise {A : Type} (m : M A) (Q : A -> World -> Prop) w e :
  wp E m Q w -> m w = Raise e -> E e.
Proof. unfold wp. intros H Hrun. rewrite Hrun in H. exact H. Qed.

Lemma total_wp {A : Type} (m : M A) (Q : A -> World -> Prop) w :
  (exists a w', m w = Ok (a, w') /\ Q a w') -> wp E m Q w.
Proof. intros (a & w' & Hrun & H). unfold wp. rewrite Hrun. exact H. Qed.

Lemma wp_for_each {A St : Type} (I : St -> World -> Prop)
    (body : A -> St -> M St) (xs : list A) : forall s w,
  (forall x s1 w1, x ∈ xs -> I s1 w1 -> wp E (body x s1) I w1) ->
  I s w ->
  wp E (for_each xs body s) I w.
Proof.
  induction xs as [| x rest IH]; intros s w Hbody Hinit; cbn [for_each].
  - apply wp_ret, Hinit.
  - apply wp_bind.
    apply (wp_mono _ I); [| apply Hbody; [left | exact Hinit]].
    intros s1 w1 H1. apply IH; [| exact H1].
    intros y s2 w2 Hy. apply Hbody. right. exact Hy.
Qed.

Lemma wp_getitem {A : Type} (seq : list A) i (Q : A -> World -> Prop) w :
  (exists x, seq !! i = Some x /\ Q x w) -> wp E (getitem seq i) Q w.
Proof.
  intros (x & Hx & HQ). unfold wp, getitem. rewrite Hx. exact HQ.
Qed.

End WeakestPrecondition.

(** ** Survival *)

Section Survival.

Variable P : Params.

Lemma well_formed_probability genotype :
  well_formed genotype -> exists p, survival_probability P genotype = Some p.
Proof.
  intros H. apply well_formed_cases in H.
  destruct H as [-> | [-> | [-> | ->]]]; cbn; eauto.
Qed.

(** On a well-formed genotype [checkSurvival] reads one uniform draw and
    compares it with the probability of the genotype's category. *)
Lemma checkSurvival_well_formed genotype w :
  well_formed genotype ->
  exists p, survival_probability P genotype = Some p
    /\ checkSurvival P genotype w
       = Ok (Qltb (uniform_tape w (uniform_pos w)) p, advance_uniform w).
Proof.
  intros H. destruct (well_formed_probability genotype H) as [p Hp].
  exists p. split; [exact Hp |].
  unfold checkSurvival, mbind, M_bind, np_random_uniform. rewrite Hp. cbn.
  destruct (Qltb _ p); reflexivity.
Qed.

Lemma skip_uniform_0 w : skip_uniform 0 w = w.
Proof. destruct w. unfold skip_uniform. cbn. f_equal. lia. Qed.

Lemma skip_uniform_advance n w :
  skip_uniform n (advance_uniform w) = skip_uniform (S n) w.
Proof. unfold skip_uniform, advance_uniform. cbn. f_equal. lia. Qed.

Lemma survival_pass_well_formed population : forall w,
  Forall well_formed population ->
  survival_pass P population w
  = Ok (survivors P (uniform_tape w) (uniform_pos w) population,
        skip_uniform (length population) w).
Proof.
  induction population as [| genotype rest IH]; intros w Hwf; cbn [survival_pass survivors length].
  - rewrite skip_uniform_0. reflexivity.
  - apply Forall_cons in Hwf as [Hg Hrest].
    destruct (checkSurvival_well_formed genotype w Hg) as (p & Hp & Hcheck).
    unfold mbind, M_bind. rewrite Hcheck, (IH _ Hrest), Hp. cbn.
    rewrite skip_uniform_advance.
    destruct (Qltb _ p); reflexivity.
Qed.

Lemma survivors_sublist tape population : forall pos,
  survivors P tape pos population `sublist_of` population.
Proof.
  induction population as [| genotype rest IH]; intros pos; cbn; [constructor |].
  destruct (survival_probability P genotype) as [p |];
    [destruct (Qltb (tape pos) p) |]; try (apply sublist_cons, IH).
  apply sublist_skip, IH.
Qed.

Lemma survivors_length tape pos population :
  (length (survivors P tape pos population) <= length population)%nat.
Proof. apply sublist_length, survivors_sublist. Qed.

Lemma survivors_well_formed tape pos population :
  Forall well_formed population -> Forall well_formed (survivors P tape pos population).
Proof.
  rewrite !Forall_forall. intros Hwf genotype Hin.
  apply Hwf. exact (sublist_subseteq _ _ (survivors_sublist tape population pos) _ Hin).
Qed.

End Survival.

(** ** Carrying capacity *)

(** C2: when the capacity loop exits, the population it holds is at most
    [CARRYING_CAPACITY] in size and is the outcome of some number [k] of
    full survival passes; after each smaller number of passes the
    population still exceeded the capacity. *)
Theorem capacity_loop_exit P fuel : forall population w population' w',
  enforce_capacity P fuel population w = Ok (population', w') ->
  Z.of_nat (length population') <= CARRYING_CAPACITY P
  /\ exists k, (k < fuel)%nat
       /\ repeat_pass P k population w = Ok (population', w')
       /\ forall j, (j < k)%nat ->
            exists pj wj, repeat_pass P j population w = Ok (pj, wj)
              /\ Z.of_nat (length pj) > CARRYING_CAPACITY P.
Proof.
  induction fuel as [| fuel IH]; intros population w population' w' Hrun; [discriminate |].
  cbn [enforce_capacity] in Hrun.
  destruct (Z.of_nat (length population) >? CARRYING_CAPACITY P) eqn:Hcmp.
  - apply bind_Ok in Hrun. destruct Hrun as (p1 & w1 & Hpass & Hrun).
    destruct (IH p1 w1 population' w' Hrun) as (Hsize & k & Hk & Hrep & Hbefore).
    split; [exact Hsize |]. exists (S k). split; [lia |]. split.
    + cbn [repeat_pass]. apply bind_Ok. exists p1, w1. split; assumption.
    + intros [| j] Hj.
      * exists population, w. split; [reflexivity | lia].
      * destruct (Hbefore j ltac:(lia)) as (pj & wj & Hj1 & Hj2).
        exists pj, wj. split; [| exact Hj2].
        cbn [repeat_pass]. apply bind_Ok. exists p1, w1. split; assumption.
  - apply ret_Ok in Hrun. injection Hrun as <- <-.
    split; [lia |]. exists 0%nat. split; [lia |]. split; [reflexivity |].
    intros j Hj. lia.
Qed.

Lemma capacity_loop_exit_witness :
  match enforce_capacity demo_params 5
          ["Aa"; "Aa"; "Aa"; "Aa"; "Aa"; "Aa"; "Aa"] demo_world with
  | Ok (population', _) => Z.of_nat (length population') <= 5
  | _ => False
  end.
Proof.
  pose proof (capacity_loop_exit demo_params 5
                ["Aa"; "Aa"; "Aa"; "Aa"; "Aa"; "Aa"; "Aa"] demo_world) as H.
  destruct (enforce_capacity demo_params 5 _ demo_world) as [[population' w'] | e |] eqn:E.
  - apply (H population' w' eq_refl).
  - vm_compute in E. discriminate E.
  - vm_compute in E. discriminate E.
Defined.

(** *** Termination of the capacity loop *)

Lemma lethal_kills P u genotype p :
  lethal P u -> survival_probability P genotype = Some p -> Qltb u p = false.
Proof.
  intros (Hd & Hh & Hr). unfold survival_probability.
  destruct (isHomRec genotype); [intros [= <-]; apply Qltb_false, Hr |].
  destruct (isHet genotype); [intros [= <-]; apply Qltb_false, Hh |].
  destruct (isHomDom genotype); [intros [= <-]; apply Qltb_false, Hd |].
  discriminate.
Qed.

(** A pass that reads a lethal draw returns fewer organisms. *)
Lemma survivors_lethal P tape population : forall pos i,
  (i < length population)%nat -> lethal P (tape (pos + i)%nat) ->
  (length (survivors P tape pos population) < length population)%nat.
Proof.
  induction population as [| genotype rest IH]; intros pos i Hi Hlethal; cbn in *; [lia |].
  destruct i as [| i].
  - rewrite Nat.add_0_r in Hlethal.
    pose proof (survivors_length P tape (S pos) rest) as Hrest.
    destruct (survival_probability P genotype) as [p |] eqn:Hp; [| lia].
    rewrite (lethal_kills P _ genotype p Hlethal Hp). lia.
  - replace (pos + S i)%nat with (S pos + i)%nat in Hlethal by lia.
    pose proof (IH (S pos) i ltac:(lia) Hlethal) as Hrest.
    destruct (survival_probability P genotype) as [p |];
      [destruct (Qltb (tape pos) p) |]; cbn; lia.
Qed.

Section CapacityTermination.

Variable P : Params.
Hypothesis capacity_nonneg : 0 <= CARRYING_CAPACITY P.

Lemma enforce_capacity_done fuel population w :
  Z.of_nat (length population) <= CARRYING_CAPACITY P ->
  enforce_capacity P (S fuel) population w = Ok (population, w).
Proof.
  intros Hle. cbn [enforce_capacity].
  destruct (Z.of_nat (length population) >? CARRYING_CAPACITY P) eqn:Hcmp; [lia | reflexivity].
Qed.

Lemma enforce_capacity_step fuel population w :
  Forall well_formed population ->
  Z.of_nat (length population) > CARRYING_CAPACITY P ->
  enforce_capacity P (S fuel) population w
  = enforce_capacity P fuel
      (survivors P (uniform_tape w) (uniform_pos w) population)
      (skip_uniform (length population) w).
Proof.
  intros Hwf Hgt. cbn [enforce_capacity].
  destruct (Z.of_nat (length population) >? CARRYING_CAPACITY P) eqn:Hcmp; [| lia].
  unfold mbind, M_bind. rewrite (survival_pass_well_formed P population w Hwf). reflexivity.
Qed.

(** With a lethal draw [d] places ahead, the loop exits, provided it
    exits from every strictly smaller population. *)
Lemma capacity_loop_reaches_lethal n :
  (forall population w, (length population <= n)%nat ->
      Forall well_formed population -> fair_draws P w ->
      capacity_loop_terminates P population w) ->
  forall d population w, (length population <= S n)%nat ->
    Forall well_formed population -> fair_draws P w ->
    lethal P (uniform_tape w (uniform_pos w + d)%nat) ->
    capacity_loop_terminates P population w.
Proof.
  intros Hsmaller d.
  induction d as [d IH] using lt_wf_ind. intros population w Hlen Hwf Hfair Hlethal.
  destruct (Z_le_gt_dec (Z.of_nat (length population)) (CARRYING_CAPACITY P)) as [Hle | Hgt].
  { exists 1%nat, population, w. split; [apply enforce_capacity_done, Hle | exact Hle]. }
  set (population1 := survivors P (uniform_tape w) (uniform_pos w) population).
  set (w1 := skip_uniform (length population) w).
  assert (Hnext : capacity_loop_terminates P population1 w1).
  { pose proof (survivors_length P (uniform_tape w) (uniform_pos w) population) as Hshort.
    pose proof (survivors_well_formed P (uniform_tape w) (uniform_pos w) population Hwf) as Hwf1.
    fold population1 in Hshort, Hwf1.
    destruct (lt_dec (length population1) (length population)) as [Hlt | Hsame].
    - apply Hsmaller; [lia | exact Hwf1 | exact Hfair].
    - assert (Hd : (length population <= d)%nat).
      { destruct (le_lt_dec (length population) d) as [Hok | Hin]; [exact Hok |].
        pose proof (survivors_lethal P (uniform_tape w) population (uniform_pos w) d
                      Hin Hlethal) as Hkill.
        fold population1 in Hkill. lia. }
      apply (IH (d - length population)%nat); [lia | lia | exact Hwf1 | exact Hfair |].
      cbn. replace (uniform_pos w + length population + (d - length population))%nat
        with (uniform_pos w + d)%nat by lia.
      exact Hlethal. }
  destruct Hnext as (fuel & population' & w' & Hrun & Hsize).
  exists (S fuel), population', w'. split; [| exact Hsize].
  rewrite (enforce_capacity_step fuel population w Hwf Hgt). exact Hrun.
Qed.

Lemma capacity_loop_terminates_bounded n : forall population w,
  (length population <= n)%nat ->
  Forall well_formed population -> fair_draws P w ->
  capacity_loop_terminates P population w.
Proof.
  induction n as [| n IH]; intros population w Hlen Hwf Hfair.
  - exists 1%nat, population, w.
    assert (Hle : Z.of_nat (length population) <= CARRYING_CAPACITY P) by lia.
    split; [apply enforce_capacity_done, Hle | exact Hle].
  - destruct (Hfair (uniform_pos w)) as (m & Hm & Hlethal).
    apply (capacity_loop_reaches_lethal n IH (m - uniform_pos w)%nat);
      [exact Hlen | exact Hwf | exact Hfair |].
    replace (uniform_pos w + (m - uniform_pos w))%nat with m by lia. exact Hlethal.
Qed.

End CapacityTermination.

(** C3, as amended: for a non-negative capacity and a well-formed
    population, the capacity loop exits, with at most
    [CARRYING_CAPACITY] organisms, on every sequence of uniform draws in
    which draws at or above all three survival probabilities keep
    occurring, as they do in the periodic stream of a generator that
    produces such a draw at all. *)
Theorem capacity_loop_terminates_fair (P : Params) (population : list string) (w : World) :
  0 <= CARRYING_CAPACITY P ->
  Forall well_formed population ->
  fair_draws P w ->
  exists fuel population' w',
    enforce_capacity P fuel population w = Ok (population', w')
    /\ Z.of_nat (length population') <= CARRYING_CAPACITY P.
Proof.
  intros Hcap Hwf Hfair.
  exact (capacity_loop_terminates_bounded P Hcap (length population) population w
           (Nat.le_refl _) Hwf Hfair).
Qed.

Lemma capacity_loop_terminates_fair_witness :
  exists fuel population' w',
    enforce_capacity demo_params fuel
      ["Aa"; "aA"; "AA"; "aa"; "Aa"; "Aa"; "Aa"] harsh_world = Ok (population', w')
    /\ Z.of_nat (length population') <= CARRYING_CAPACITY demo_params.
Proof.
  apply (capacity_loop_terminates_fair demo_params
           ["Aa"; "aA"; "AA"; "aa"; "Aa"; "Aa"; "Aa"] harsh_world).
  - cbn. lia.
  - repeat constructor; apply well_formed_cases; auto.
  - intros n. exists n. split; [lia |]. unfold lethal. cbn. lra.
Defined.

(** Fair draws within the range of [np.random.uniform] exist exactly
    when all three survival probabilities are below 1. *)
Lemma fair_draws_below_one P w :
  unit_draws w -> fair_draws P w ->
  (HOM_DOM_SURV_PROB P < 1)%Q /\ (HET_SURV_PROB P < 1)%Q /\ (HOM_REC_SURV_PROB P < 1)%Q.
Proof.
  intros Hunit Hfair. destruct (Hfair 0%nat) as (m & _ & Hd & Hh & Hr).
  destruct (Hunit m) as [_ Hlt]. repeat split; lra.
Qed.

Lemma fair_draws_exist P w :
  (HOM_DOM_SURV_PROB P < 1)%Q -> (HET_SURV_PROB P < 1)%Q -> (HOM_REC_SURV_PROB P < 1)%Q ->
  (forall n, uniform_tape w n = least_lethal P) ->
  unit_draws w /\ fair_draws P w.
Proof.
  intros Hd Hh Hr Htape. unfold least_lethal in Htape.
  pose proof (Q.le_max_l 0 (Qmax (HOM_DOM_SURV_PROB P)
                (Qmax (HET_SURV_PROB P) (HOM_REC_SURV_PROB P)))) as H0.
  pose proof (Q.le_max_r 0 (Qmax (HOM_DOM_SURV_PROB P)
                (Qmax (HET_SURV_PROB P) (HOM_REC_SURV_PROB P)))) as H1.
  pose proof (Q.le_max_l (HOM_DOM_SURV_PROB P)
                (Qmax (HET_SURV_PROB P) (HOM_REC_SURV_PROB P))) as H2.
  pose proof (Q.le_max_r (HOM_DOM_SURV_PROB P)
                (Qmax (HET_SURV_PROB P) (HOM_REC_SURV_PROB P))) as H3.
  pose proof (Q.le_max_l (HET_SURV_PROB P) (HOM_REC_SURV_PROB P)) as H4.
  pose proof (Q.le_max_r (HET_SURV_PROB P) (HOM_REC_SURV_PROB P)) as H5.
  split.
  - intros n. rewrite Htape. split; [exact H0 |].
    apply Q.max_lub_lt; [reflexivity |].
    apply Q.max_lub_lt; [exact Hd |]. apply Q.max_lub_lt; assumption.
  - intros n. exists n. split; [lia |]. unfold lethal. rewrite Htape.
    repeat split; lra.
Qed.

(** A generator stream is periodic; if a lethal draw occurs in it at
    all, lethal draws keep coming. *)
Lemma periodic_draws_fair P w (period k : nat) :
  (0 < period)%nat ->
  (forall n, uniform_tape w (n + period)%nat = uniform_tape w n) ->
  lethal P (uniform_tape w k) ->
  fair_draws P w.
Proof.
  intros Hperiod Hcycle Hlethal.
  assert (Hshift : forall j, uniform_tape w (k + j * period)%nat = uniform_tape w k).
  { induction j as [| j IH]; [f_equal; lia |].
    replace (k + S j * period)%nat with (k + j * period + period)%nat by lia.
    rewrite Hcycle. exact IH. }
  intros n. exists (k + n * period)%nat. split; [nia |].
  rewrite Hshift. exact Hlethal.
Qed.

(** Below zero every population exceeds the capacity, the empty one
    included, so the loop keeps running whatever the draws. *)
Lemma negative_capacity_hangs P fuel : forall population w,
  CARRYING_CAPACITY P < 0 ->
  Forall well_formed population ->
  enforce_capacity P fuel population w = OutOfFuel.
Proof.
  induction fuel as [| fuel IH]; intros population w Hneg Hwf; [reflexivity |].
  rewrite enforce_capacity_step; [| exact Hwf | lia].
  apply IH; [exact Hneg |]. apply survivors_well_formed, Hwf.
Qed.

(** C3, as stated, fails: with the script's probabilities, all below
    1, and a carrying capacity of -1, two heterozygotes exceed the
    capacity and the loop exits on no sequence of draws, for no amount
    of fuel. *)
Lemma capacity_loop_hangs_below_zero :
  ((HOM_DOM_SURV_PROB negative_capacity_params < 1)%Q
   /\ (HET_SURV_PROB negative_capacity_params < 1)%Q
   /\ (HOM_REC_SURV_PROB negative_capacity_params < 1)%Q)
  /\ Forall well_formed ["Aa"; "Aa"]
  /\ Z.of_nat (length ["Aa"; "Aa"]) > CARRYING_CAPACITY negative_capacity_params
  /\ (forall w fuel,
        enforce_capacity negative_capacity_params fuel ["Aa"; "Aa"] w = OutOfFuel)
  /\ ~ (exists w fuel result,
          enforce_capacity negative_capacity_params fuel ["Aa"; "Aa"] w = Ok result).
Proof.
  assert (Hwf : Forall well_formed ["Aa"; "Aa"])
    by (repeat constructor; apply well_formed_cases; auto).
  assert (Hhang : forall w fuel,
             enforce_capacity negative_capacity_params fuel ["Aa"; "Aa"] w = OutOfFuel).
  { intros w fuel. apply negative_capacity_hangs; [cbn; lia | exact Hwf]. }
  split; [cbn; repeat split; reflexivity |].
  split; [exact Hwf |].
  split; [cbn; lia |].
  split; [exact Hhang |].
  intros (w & fuel & result & Hrun). rewrite Hhang in Hrun. discriminate Hrun.
Qed.

(** ** Well-formedness of the population *)

Section WellFormedness.

Variable P : Params.

Lemma initial_population_well_formed :
  Forall well_formed (CURRENT_POPULATION (initial_state P)).
Proof.
  cbn. apply Forall_forall. intros organism Hin.
  apply list_elem_of_fmap in Hin as (i & -> & _).
  apply well_formed_cases. auto.
Qed.

Lemma wp_survival_pass population w :
  Forall well_formed population ->
  wp (config_error P) (survival_pass P population) (fun population' _ => Forall well_formed population') w.
Proof.
  intros Hwf. apply total_wp. eexists _, _.
  split; [apply survival_pass_well_formed, Hwf |].
  apply survivors_well_formed, Hwf.
Qed.

Lemma wp_enforce_capacity fuel : forall population w,
  Forall well_formed population ->
  wp (config_error P) (enforce_capacity P fuel population)
     (fun population' _ => Forall well_formed population') w.
Proof.
  induction fuel as [| fuel IH]; intros population w Hwf; [exact Logic.I |].
  cbn [enforce_capacity].
  destruct (Z.of_nat (length population) >? CARRYING_CAPACITY P).
  - apply wp_bind. eapply wp_mono; [| apply wp_survival_pass, Hwf].
    intros population1 w1 Hwf1. apply IH, Hwf1.
  - apply wp_ret, Hwf.
Qed.

(** The two groups hold valid indices into the population. *)
Lemma wp_mating_groups n w :
  wp (config_error P) (mating_groups n)
     (fun groups _ => Forall (fun i => (i < n)%nat) groups.1
                      /\ Forall (fun i => (i < n)%nat) groups.2) w.
Proof.
  destruct (random_shuffle_perm (seq 0 n) w) as (l & w' & Hshuffle & Hperm).
  apply total_wp. exists (slice_step2 0 l, slice_step2 1 l), w'. split.
  - unfold mating_groups. apply bind_Ok. exists l, w'. split; [exact Hshuffle | reflexivity].
  - cbn [fst snd]. apply Forall_app. unfold slice_step2 at 1. cbn [drop].
    rewrite <- every_other_split, Hperm.
    apply Forall_forall. intros i Hi. apply list_elem_of_In, in_seq in Hi. lia.
Qed.

Lemma list_of_str_well_formed organism :
  well_formed organism ->
  exists a1 a2, list_of_str organism = [a1; a2] /\ is_allele a1 /\ is_allele a2.
Proof.
  intros (a1 & a2 & H1 & H2 & ->). exists a1, a2.
  destruct H1 as [-> | ->], H2 as [-> | ->]; cbn; unfold is_allele; auto.
Qed.

(** [random.choice] applied to the letters of a well-formed organism
    returns an allele. *)
Lemma wp_choose_allele organism w :
  well_formed organism ->
  wp (config_error P) (random_choice (list_of_str organism)) (fun a _ => is_allele a) w.
Proof.
  intros Hwf. destruct (list_of_str_well_formed organism Hwf) as (a1 & a2 & -> & H1 & H2).
  unfold random_choice. cbn [length Nat.eqb].
  apply wp_bind. unfold wp at 1, randbelow.
  pose proof (Nat.mod_upper_bound (randbits_tape w (randbits_pos w)) 2 ltac:(lia)) as Hlt.
  apply wp_getitem.
  destruct (randbits_tape w (randbits_pos w) mod 2)%nat as [| [| i]]; [eauto | eauto | lia].
Qed.

Lemma wp_generateOffspring p1 p2 w :
  well_formed p1 -> well_formed p2 ->
  wp (config_error P) (generateOffspring p1 p2) (fun child _ => well_formed child) w.
Proof.
  intros H1 H2. unfold generateOffspring.
  apply wp_bind. eapply wp_mono; [| apply wp_choose_allele, H1].
  intros a1 w1 Ha1. apply wp_bind. eapply wp_mono; [| apply wp_choose_allele, H2].
  intros a2 w2 Ha2. apply wp_ret. exists a1, a2. auto.
Qed.

Section Reproduction.

Variables (population : list string) (l1 l2 : list nat).
Hypothesis population_wf : Forall well_formed population.
Hypothesis l1_valid : Forall (fun i => (i < length population)%nat) l1.
Hypothesis l2_valid : Forall (fun i => (i < length population)%nat) l2.

Lemma wp_produce_offspring pairnum offspringnum NEW_POPULATION w :
  (pairnum < length l1)%nat -> (pairnum < length l2)%nat ->
  Forall well_formed NEW_POPULATION ->
  wp (config_error P) (produce_offspring population l1 l2 pairnum offspringnum NEW_POPULATION)
     (fun NEW_POPULATION' _ => Forall well_formed NEW_POPULATION') w.
Proof.
  intros Hp1 Hp2 Hnew. unfold produce_offspring.
  destruct (lookup_lt_is_Some_2 l1 pairnum Hp1) as [i1 Hi1].
  destruct (lookup_lt_is_Some_2 l2 pairnum Hp2) as [i2 Hi2].
  pose proof (Forall_lookup_1 _ _ _ _ l1_valid Hi1) as Hlt1.
  pose proof (Forall_lookup_1 _ _ _ _ l2_valid Hi2) as Hlt2. cbn in Hlt1, Hlt2.
  destruct (lookup_lt_is_Some_2 population i1 Hlt1) as [p1 Hparent1].
  destruct (lookup_lt_is_Some_2 population i2 Hlt2) as [p2 Hparent2].
  apply wp_bind, wp_getitem. exists i1. split; [exact Hi1 |].
  apply wp_bind, wp_getitem. exists p1. split; [exact Hparent1 |].
  apply wp_bind, wp_getitem. exists i2. split; [exact Hi2 |].
  apply wp_bind, wp_getitem. exists p2. split; [exact Hparent2 |].
  apply wp_bind. eapply wp_mono; [| apply wp_generateOffspring].
  - intros child w1 Hchild. apply wp_ret, Forall_app. split; [exact Hnew |].
    constructor; [exact Hchild | constructor].
  - exact (Forall_lookup_1 _ _ _ _ population_wf Hparent1).
  - exact (Forall_lookup_1 _ _ _ _ population_wf Hparent2).
Qed.

Lemma wp_mate_pair pairnum NEW_POPULATION w :
  (pairnum < length l1)%nat -> (pairnum < length l2)%nat ->
  Forall well_formed NEW_POPULATION ->
  wp (config_error P) (mate_pair P population l1 l2 pairnum NEW_POPULATION)
     (fun NEW_POPULATION' _ => Forall well_formed NEW_POPULATION') w.
Proof.
  intros Hp1 Hp2 Hnew. unfold mate_pair. apply wp_bind.
  unfold wp at 1, howManyOffspring, mbind, M_bind, np_random_normal.
  destruct (Qltb (OFFSPRING_N_STD P) 0) eqn:Hstd.
  { split; [reflexivity |]. apply Qlt_alt. unfold Qltb in Hstd.
    destruct (OFFSPRING_N_STD P ?= 0)%Q; [discriminate | reflexivity | discriminate]. }
  cbn.
  apply (wp_for_each _ (fun NEW _ => Forall well_formed NEW)); [| exact Hnew].
  intros offspringnum NEW w1 _ HNEW. apply wp_produce_offspring; assumption.
Qed.

Lemma wp_reproduce w :
  wp (config_error P) (reproduce P population l1 l2)
     (fun NEW_POPULATION _ => Forall well_formed NEW_POPULATION) w.
Proof.
  unfold reproduce.
  apply (wp_for_each _ (fun NEW _ => Forall well_formed NEW)); [| constructor].
  intros pairnum NEW w1 Hpair HNEW.
  apply list_elem_of_In, in_seq in Hpair.
  apply wp_mate_pair; [lia | lia | exact HNEW].
Qed.

End Reproduction.

Lemma wp_generation fuel generation_num st w :
  state_well_formed st ->
  wp (config_error P) (generation P fuel generation_num st) (fun st' _ => state_well_formed st') w.
Proof.
  intros [Hcur Hdata]. unfold generation.
  apply wp_bind. eapply wp_mono; [| apply wp_survival_pass, Hcur].
  intros population1 w1 Hwf1.
  apply wp_bind. eapply wp_mono; [| apply wp_enforce_capacity, Hwf1].
  intros population w2 Hwf.
  apply wp_bind. eapply wp_mono; [| apply wp_mating_groups].
  intros [l1 l2] w3 [Hl1 Hl2]. cbn [fst snd] in *.
  apply wp_bind. eapply wp_mono; [| apply wp_reproduce; assumption].
  intros NEW_POPULATION w4 Hnew. apply wp_ret. split; cbn.
  - exact Hnew.
  - apply Forall_app. split; [exact Hdata |]. constructor; [exact Hwf | constructor].
Qed.

Lemma wp_run_generations fuel n st w :
  state_well_formed st ->
  wp (config_error P) (run_generations P fuel n st) (fun st' _ => state_well_formed st') w.
Proof.
  intros Hst. unfold run_generations.
  apply (wp_for_each _ (fun st' _ => state_well_formed st')); [| exact Hst].
  intros generation_num st1 w1 _ Hst1. apply wp_generation, Hst1.
Qed.

Lemma wp_simulate fuel w :
  wp (config_error P) (simulate P fuel) (fun st _ => state_well_formed st) w.
Proof.
  apply wp_run_generations. split; [apply initial_population_well_formed | constructor].
Qed.

End WellFormedness.

Lemma count_organism_once c organism :
  well_formed organism -> counted_once c (count_organism c organism).
Proof.
  intros H. apply well_formed_cases in H.
  destruct H as [-> | [-> | [-> | ->]]]; unfold counted_once, count_organism; simpl; lia.
Qed.

Lemma fold_count_classified generation : forall c,
  Forall well_formed generation ->
  classified (fold_left count_organism generation c)
  = classified c + Z.of_nat (length generation).
Proof.
  induction generation as [| organism rest IH]; intros c Hwf; cbn [fold_left length].
  - lia.
  - apply Forall_cons in Hwf as [Horg Hrest]. rewrite (IH _ Hrest).
    pose proof (count_organism_once c organism Horg) as Honce.
    unfold counted_once, classified in *. lia.
Qed.

Lemma count_generation_classified generation :
  Forall well_formed generation ->
  classified (count_generation generation) = Z.of_nat (length generation).
Proof.
  intros Hwf. unfold count_generation.
  rewrite (fold_count_classified generation zero_counters Hwf). reflexivity.
Qed.

(** C10: a well-formed organism is one of the four two-letter strings
    over "A" and "a"; the simulation raises neither [UnboundLocalError]
    nor [IndexError], and when it returns, the current
    population and every recorded generation consist of well-formed
    organisms, all of which the statistics loop classifies; on a
    well-formed genotype [checkSurvival] finds its probability bound,
    and the counting step increments exactly one genotype counter. *)
Theorem population_stays_well_formed (P : Params) (fuel : nat) (w : World) :
  (forall organism,
      well_formed organism <->
      organism = "AA" \/ organism = "Aa" \/ organism = "aA" \/ organism = "aa")
  /\ (simulate P fuel w <> Raise UnboundLocalError
      /\ simulate P fuel w <> Raise IndexError)
  /\ (forall st w', simulate P fuel w = Ok (st, w') ->
        Forall well_formed (CURRENT_POPULATION st)
        /\ Forall (Forall well_formed) (GENERATIONAL_DATA st)
        /\ Forall (fun generation =>
                     classified (count_generation generation)
                     = Z.of_nat (length generation))
                  (GENERATIONAL_DATA st))
  /\ (forall genotype w1, well_formed genotype ->
        exists p, survival_probability P genotype = Some p
          /\ checkSurvival P genotype w1
             = Ok (Qltb (uniform_tape w1 (uniform_pos w1)) p, advance_uniform w1))
  /\ (forall organism c, well_formed organism ->
        counted_once c (count_organism c organism)).
Proof.
  pose proof (wp_simulate P fuel w) as Hwp.
  split; [exact well_formed_cases |].
  split.
  { split; intros Hrun; destruct (wp_Raise _ _ _ _ _ Hwp Hrun) as [He _]; discriminate He. }
  split.
  - intros st w' Hrun. destruct (wp_Ok _ _ _ _ _ _ Hwp Hrun) as [Hcur Hdata].
    split; [exact Hcur |]. split; [exact Hdata |].
    eapply Forall_impl; [exact Hdata |].
    intros generation Hwf. apply count_generation_classified, Hwf.
  - split.
    + intros genotype w1 Hwf. apply checkSurvival_well_formed, Hwf.
    + intros organism c Hwf. apply count_organism_once, Hwf.
Qed.

Lemma population_stays_well_formed_witness :
  match simulate demo_params 10 demo_world with
  | Ok (st, _) =>
      Forall well_formed (CURRENT_POPULATION st)
      /\ Forall (Forall well_formed) (GENERATIONAL_DATA st)
  | _ => False
  end
  /\ counted_once zero_counters (count_organism zero_counters "aA").
Proof.
  pose proof (population_stays_well_formed demo_params 10%nat demo_world)
    as (Hcases & _ & Hrun & _ & Hcount).
  split.
  - destruct (simulate demo_params 10 demo_world) as [[st w'] | e |] eqn:E.
    + destruct (Hrun st w' eq_refl) as (Hcur & Hdata & _). split; assumption.
    + vm_compute in E. discriminate E.
    + vm_compute in E. discriminate E.
  - apply Hcount, Hcases. auto.
Defined.

(** ** Extinction *)

Lemma for_each_app {A St : Type} (body : A -> St -> M St) (xs ys : list A) : forall s w,
  for_each (xs ++ ys) body s w = (s' ← for_each xs body s; for_each ys body s') w.
Proof.
  induction xs as [| x rest IH]; intros s w; cbn [for_each app].
  - reflexivity.
  - unfold mbind, M_bind.
    destruct (body x s w) as [[s1 w1] | e |]; [apply IH | reflexivity | reflexivity].
Qed.

(** A successful exit of the capacity loop spent fuel and left at most
    [CARRYING_CAPACITY] organisms. *)
Lemma enforce_capacity_Ok P fuel : forall population w population' w',
  enforce_capacity P fuel population w = Ok (population', w') ->
  (0 < fuel)%nat /\ Z.of_nat (length population') <= CARRYING_CAPACITY P.
Proof.
  induction fuel as [| fuel IH]; intros population w population' w' Hrun; [discriminate |].
  split; [lia |]. cbn [enforce_capacity] in Hrun.
  destruct (Z.of_nat (length population) >? CARRYING_CAPACITY P) eqn:Hcmp.
  - apply bind_Ok in Hrun. destruct Hrun as (p1 & w1 & _ & Hrun).
    exact (proj2 (IH _ _ _ _ Hrun)).
  - apply ret_Ok in Hrun. injection Hrun as <- <-. lia.
Qed.

Section Extinction.

Variable P : Params.
Variable fuel : nat.

(** An empty population forms no pairs and leaves no offspring. *)
Lemma mating_after_extinction w :
  mating_groups 0 w = Ok (([], []), w) /\ reproduce P [] [] [] w = Ok ([], w).
Proof. split; reflexivity. Qed.

(** The generation in which the survivors die out. *)
Lemma generation_dies_out generation_num st w p1 w1 w2 :
  survival_pass P (CURRENT_POPULATION st) w = Ok (p1, w1) ->
  enforce_capacity P fuel p1 w1 = Ok ([], w2) ->
  generation P fuel generation_num st w
  = Ok ({| CURRENT_POPULATION := [];
           GENERATIONAL_DATA := GENERATIONAL_DATA st ++ [[]] |}, w2).
Proof.
  intros Hpass Hcap. unfold generation, mbind, M_bind.
  rewrite Hpass, Hcap. reflexivity.
Qed.

Hypothesis fuel_pos : (0 < fuel)%nat.
Hypothesis capacity_nonneg : 0 <= CARRYING_CAPACITY P.

Lemma generation_extinct generation_num st w :
  CURRENT_POPULATION st = [] ->
  generation P fuel generation_num st w
  = Ok ({| CURRENT_POPULATION := [];
           GENERATIONAL_DATA := GENERATIONAL_DATA st ++ [[]] |}, w).
Proof.
  intros Hempty. apply (generation_dies_out generation_num st w [] w w).
  - rewrite Hempty. reflexivity.
  - destruct fuel as [| fuel']; [lia |]. apply enforce_capacity_done. cbn. lia.
Qed.

Lemma generations_extinct (nums : list nat) : forall st w,
  CURRENT_POPULATION st = [] ->
  for_each nums (generation P fuel) st w
  = Ok ({| CURRENT_POPULATION := [];
           GENERATIONAL_DATA := GENERATIONAL_DATA st ++ repeat [] (length nums) |}, w).
Proof.
  induction nums as [| num rest IH]; intros st w Hempty; cbn [for_each length repeat].
  - rewrite app_nil_r. destruct st as [cur data]. cbn in *. subst cur. reflexivity.
  - unfold mbind, M_bind. rewrite (generation_extinct num st w Hempty).
    rewrite IH by reflexivity. cbn. rewrite <- app_assoc. reflexivity.
Qed.

End Extinction.

Lemma range_add (a b : nat) : range (Z.of_nat (a + b)) = seq 0 a ++ seq a b.
Proof. unfold range. rewrite Nat2Z.id. apply seq_app. Qed.

(** Extinction in generation [g] fixes the rest of a run of
    [g + 1 + m] generations. *)
Lemma run_generations_extinction P fuel (g m : nat) st0 w0 st w p1 w1 w2 :
  run_generations P fuel (Z.of_nat g) st0 w0 = Ok (st, w) ->
  survival_pass P (CURRENT_POPULATION st) w = Ok (p1, w1) ->
  enforce_capacity P fuel p1 w1 = Ok ([], w2) ->
  run_generations P fuel (Z.of_nat (g + (1 + m))) st0 w0
  = Ok ({| CURRENT_POPULATION := [];
           GENERATIONAL_DATA := GENERATIONAL_DATA st ++ repeat [] (1 + m) |}, w2).
Proof.
  intros Hprefix Hpass Hcap.
  destruct (enforce_capacity_Ok P fuel _ _ _ _ Hcap) as [Hfuel Hsize]. cbn in Hsize.
  unfold run_generations in *. rewrite range_add, for_each_app.
  unfold range in Hprefix. rewrite Nat2Z.id in Hprefix.
  unfold mbind at 1, M_bind. rewrite Hprefix.
  cbn [seq for_each Nat.add]. unfold mbind at 1, M_bind.
  rewrite (generation_dies_out P fuel g st w p1 w1 w2 Hpass Hcap).
  rewrite (generations_extinct P fuel Hfuel Hsize) by reflexivity.
  rewrite length_seq. cbn. rewrite <- app_assoc. reflexivity.
Qed.

(** C7: if the survivors of generation [g] die out, no pairs form, and
    the simulation still completes all [N_GENERATIONS] iterations: its
    history is the history of the first [g] generations followed by an
    empty population for generation [g] and for every later one. *)
Theorem extinction_is_permanent P fuel (g m : nat) w0 st w p1 w1 w2 :
  N_GENERATIONS P = Z.of_nat (g + (1 + m)) ->
  run_generations P fuel (Z.of_nat g) (initial_state P) w0 = Ok (st, w) ->
  survival_pass P (CURRENT_POPULATION st) w = Ok (p1, w1) ->
  enforce_capacity P fuel p1 w1 = Ok ([], w2) ->
  (mating_groups 0 w2 = Ok (([], []), w2) /\ reproduce P [] [] [] w2 = Ok ([], w2))
  /\ length (GENERATIONAL_DATA st) = g
  /\ simulate P fuel w0
     = Ok ({| CURRENT_POPULATION := [];
              GENERATIONAL_DATA := GENERATIONAL_DATA st ++ repeat [] (1 + m) |}, w2)
  /\ length (GENERATIONAL_DATA st ++ repeat [] (1 + m)) = Z.to_nat (N_GENERATIONS P).
Proof.
  intros Htotal Hprefix Hpass Hcap.
  pose proof (run_generations_history_length P fuel _ _ _ _ _ Hprefix) as Hlen.
  cbn in Hlen. rewrite Nat2Z.id in Hlen.
  split; [apply mating_after_extinction |].
  split; [exact Hlen |]. split.
  - unfold simulate. rewrite Htotal.
    apply (run_generations_extinction P fuel g m _ _ st w p1 w1 w2); assumption.
  - rewrite length_app, repeat_length, Hlen, Htotal, Nat2Z.id. reflexivity.
Qed.

Lemma extinction_is_permanent_witness :
  exists w1 w2,
    survival_pass demo_params
      (CURRENT_POPULATION (initial_state demo_params)) harsh_world = Ok ([], w1)
    /\ length (CURRENT_POPULATION (initial_state demo_params)) = 7%nat
    /\ simulate demo_params 10 harsh_world
       = Ok ({| CURRENT_POPULATION := []; GENERATIONAL_DATA := [[]; []; []; []] |}, w2).
Proof.
  edestruct (extinction_is_permanent demo_params 10 0 3 harsh_world)
    as (_ & _ & Hrun & _).
  - reflexivity.
  - lazy. reflexivity.
  - lazy. reflexivity.
  - lazy. reflexivity.
  - eexists _, _. split; [lazy; reflexivity |]. split; [reflexivity |]. exact Hrun.
Defined.

(** * Further properties of the script *)

(** ** Random genotypes *)

Lemma getRandomAllele_draw w :
  getRandomAllele w
  = Ok (if (randbits_tape w (randbits_pos w) mod 2 =? 0)%nat
        then DOMINANT_ALLELE else RECESSIVE_ALLELE,
        advance_randbits w).
Proof.
  unfold getRandomAllele, random_choice, mbind, M_bind, randbelow. cbn [length Nat.eqb].
  pose proof (Nat.mod_upper_bound (randbits_tape w (randbits_pos w)) 2 ltac:(lia)) as Hlt.
  destruct (randbits_tape w (randbits_pos w) mod 2)%nat as [| [| i]]; [reflexivity .. | lia].
Qed.

(** X1: [generateGenotype] never fails: it reads two raw random integers
    and returns a well-formed genotype. *)
Theorem generateGenotype_well_formed (w : World) :
  exists genotype,
    generateGenotype w = Ok (genotype, advance_randbits (advance_randbits w))
    /\ well_formed genotype.
Proof.
  unfold generateGenotype, mbind, M_bind.
  rewrite getRandomAllele_draw, getRandomAllele_draw.
  eexists. split; [reflexivity |].
  eexists _, _. split; [| split; [| reflexivity]].
  - destruct (_ =? 0)%nat; [left | right]; reflexivity.
  - destruct (_ =? 0)%nat; [left | right]; reflexivity.
Qed.

Lemma allele_index_cases a :
  is_allele a ->
  (if (allele_index a mod 2 =? 0)%nat then DOMINANT_ALLELE else RECESSIVE_ALLELE) = a.
Proof. intros [-> | ->]; reflexivity. Qed.

(** X2: every well-formed genotype is the result of [generateGenotype]
    for some random draws. *)
Theorem generateGenotype_onto (genotype : string) :
  well_formed genotype ->
  exists w w', generateGenotype w = Ok (genotype, w').
Proof.
  intros (a1 & a2 & H1 & H2 & ->).
  exists (bits_world (allele_index a1) (allele_index a2)). eexists.
  unfold generateGenotype, mbind, M_bind.
  rewrite getRandomAllele_draw, getRandomAllele_draw. cbn [bits_world randbits_tape
    randbits_pos advance_randbits].
  rewrite (allele_index_cases a1 H1), (allele_index_cases a2 H2). reflexivity.
Qed.

Lemma generateGenotype_onto_witness :
  exists w w', generateGenotype w = Ok ("aA", w').
Proof.
  apply (generateGenotype_onto "aA"). apply well_formed_cases. auto.
Defined.

(** ** Survival trials *)

Lemma not_well_formed_unclassified genotype :
  ~ well_formed genotype ->
  isHomDom genotype = false /\ isHet genotype = false /\ isHomRec genotype = false.
Proof.
  intros Hnot. unfold isHomDom, isHet, isHomRec.
  repeat split.
  - destruct (String.eqb_spec genotype (DOMINANT_ALLELE +:+ DOMINANT_ALLELE)) as [-> |];
      [| reflexivity].
    exfalso. apply Hnot, well_formed_cases. auto.
  - destruct (String.eqb_spec genotype (DOMINANT_ALLELE +:+ RECESSIVE_ALLELE)) as [-> |].
    { exfalso. apply Hnot, well_formed_cases. auto. }
    destruct (String.eqb_spec genotype (RECESSIVE_ALLELE +:+ DOMINANT_ALLELE)) as [-> |];
      [| reflexivity].
    exfalso. apply Hnot, well_formed_cases. auto.
  - destruct (String.eqb_spec genotype (RECESSIVE_ALLELE +:+ RECESSIVE_ALLELE)) as [-> |];
      [| reflexivity].
    exfalso. apply Hnot, well_formed_cases. auto.
Qed.

(** X3: on a string that is none of the four genotypes [checkSurvival]
    raises [UnboundLocalError]. *)
Theorem checkSurvival_unclassified (P : Params) (genotype : string) (w : World) :
  ~ well_formed genotype ->
  checkSurvival P genotype w = Raise UnboundLocalError.
Proof.
  intros Hnot.
  destruct (not_well_formed_unclassified genotype Hnot) as (Hd & Hh & Hr).
  unfold checkSurvival, survival_probability, mbind, M_bind. rewrite Hd, Hh, Hr.
  reflexivity.
Qed.

Lemma checkSurvival_unclassified_witness :
  checkSurvival script_params "AAa" demo_world = Raise UnboundLocalError.
Proof.
  apply (checkSurvival_unclassified script_params "AAa" demo_world).
  intros H. apply well_formed_cases in H.
  destruct H as [H | [H | [H | H]]]; discriminate H.
Defined.

Lemma Qltb_spec u p : Qltb u p = true <-> (u < p)%Q.
Proof.
  unfold Qltb. rewrite Qlt_alt.
  destruct (u ?= p)%Q; split; intros H; try reflexivity; discriminate H.
Qed.

Lemma classified_genotype genotype :
  (isHomDom genotype = true -> genotype = "AA")
  /\ (isHet genotype = true -> genotype = "Aa" \/ genotype = "aA")
  /\ (isHomRec genotype = true -> genotype = "aa").
Proof.
  unfold isHomDom, isHet, isHomRec. repeat split.
  - intros H. apply String.eqb_eq in H. exact H.
  - intros H. apply orb_true_iff in H as [H | H]; apply String.eqb_eq in H; auto.
  - intros H. apply String.eqb_eq in H. exact H.
Qed.

(** X4: [checkSurvival] compares one uniform draw with the probability
    of the genotype's own category, and the organism survives exactly
    when the draw is strictly below it. *)
Theorem checkSurvival_by_category (P : Params) (genotype : string) (w : World) :
  (isHomDom genotype = true ->
     checkSurvival P genotype w
     = Ok (Qltb (uniform_tape w (uniform_pos w)) (HOM_DOM_SURV_PROB P), advance_uniform w))
  /\ (isHet genotype = true ->
       checkSurvival P genotype w
       = Ok (Qltb (uniform_tape w (uniform_pos w)) (HET_SURV_PROB P), advance_uniform w))
  /\ (isHomRec genotype = true ->
       checkSurvival P genotype w
       = Ok (Qltb (uniform_tape w (uniform_pos w)) (HOM_REC_SURV_PROB P), advance_uniform w))
  /\ (forall u p, Qltb u p = true <-> (u < p)%Q).
Proof.
  destruct (classified_genotype genotype) as (Hd & Hh & Hr).
  assert (Hcheck : forall p, survival_probability P genotype = Some p ->
            checkSurvival P genotype w
            = Ok (Qltb (uniform_tape w (uniform_pos w)) p, advance_uniform w)).
  { intros p Hp. unfold checkSurvival, mbind, M_bind, np_random_uniform. rewrite Hp. cbn.
    destruct (Qltb _ p); reflexivity. }
  repeat split; try apply Qltb_spec.
  - intros H. apply Hcheck. rewrite (Hd H). reflexivity.
  - intros H. apply Hcheck. destruct (Hh H) as [-> | ->]; reflexivity.
  - intros H. apply Hcheck. rewrite (Hr H). reflexivity.
Qed.

Lemma checkSurvival_by_category_witness :
  checkSurvival script_params "aa" demo_world = Ok (true, advance_uniform demo_world)
  /\ checkSurvival script_params "aA" (advance_uniform demo_world)
     = Ok (false, advance_uniform (advance_uniform demo_world)).
Proof.
  split.
  - apply (proj1 (proj2 (proj2 (checkSurvival_by_category script_params "aa" demo_world)))).
    reflexivity.
  - apply (proj1 (proj2 (checkSurvival_by_category script_params "aA"
                           (advance_uniform demo_world)))).
    reflexivity.
Defined.

(** X5: with a uniform draw in the unit interval, an organism whose
    category has survival probability at least 1 always survives, and
    one whose category has probability at most 0 never does. *)
Theorem checkSurvival_certain (P : Params) (genotype : string) (w : World) (p : Q) :
  survival_probability P genotype = Some p ->
  (0 <= uniform_tape w (uniform_pos w))%Q ->
  (uniform_tape w (uniform_pos w) < 1)%Q ->
  ((1 <= p)%Q -> checkSurvival P genotype w = Ok (true, advance_uniform w))
  /\ ((p <= 0)%Q -> checkSurvival P genotype w = Ok (false, advance_uniform w)).
Proof.
  intros Hp Hlo Hhi.
  assert (Hcheck : checkSurvival P genotype w
            = Ok (Qltb (uniform_tape w (uniform_pos w)) p, advance_uniform w)).
  { unfold checkSurvival, mbind, M_bind, np_random_uniform. rewrite Hp. cbn.
    destruct (Qltb _ p); reflexivity. }
  rewrite Hcheck. split; intros Hprob.
  - replace (Qltb (uniform_tape w (uniform_pos w)) p) with true; [reflexivity |].
    symmetry. apply Qltb_spec. lra.
  - rewrite Qltb_false by lra. reflexivity.
Qed.

Lemma checkSurvival_certain_witness :
  checkSurvival certain_params "Aa" zero_draw_world
  = Ok (true, advance_uniform zero_draw_world).
Proof.
  apply (proj1 (checkSurvival_certain certain_params "Aa" zero_draw_world 1
                  eq_refl ltac:(cbn; lra) ltac:(cbn; lra))).
  lra.
Defined.

(** ** Offspring *)

Lemma random_choice_empty {A : Type} w : random_choice (@nil A) w = Raise IndexError.
Proof. reflexivity. Qed.

Lemma random_choice_nonempty {A : Type} (seq : list A) w :
  seq <> [] ->
  exists x, seq !! (randbits_tape w (randbits_pos w) mod length seq)%nat = Some x
    /\ random_choice seq w = Ok (x, advance_randbits w).
Proof.
  intros Hne. assert (Hlen : (0 < length seq)%nat) by (destruct seq; [congruence | cbn; lia]).
  pose proof (Nat.mod_upper_bound (randbits_tape w (randbits_pos w)) (length seq)
                ltac:(lia)) as Hlt.
  destruct (lookup_lt_is_Some_2 seq _ Hlt) as [x Hx].
  exists x. split; [exact Hx |].
  unfold random_choice. destruct (Nat.eqb_spec (length seq) 0) as [H0 | _]; [lia |].
  unfold mbind, M_bind, randbelow, getitem. rewrite Hx. reflexivity.
Qed.

Lemma list_of_str_nonempty p : p <> "" -> list_of_str p <> [].
Proof. destruct p; [congruence | discriminate]. Qed.

(** X6: for non-empty parents [generateOffspring] reads two raw random
    integers and returns the letter of the first parent at the first
    integer's residue followed by the letter of the second parent at the
    second integer's residue; the child of well-formed parents is
    well-formed. *)
Theorem generateOffspring_from_parents (p1 p2 : string) (w : World) :
  p1 <> "" -> p2 <> "" ->
  exists a1 a2,
    list_of_str p1 !! (randbits_tape w (randbits_pos w)
                       mod length (list_of_str p1))%nat = Some a1
    /\ list_of_str p2 !! (randbits_tape w (S (randbits_pos w))
                          mod length (list_of_str p2))%nat = Some a2
    /\ generateOffspring p1 p2 w
       = Ok (a1 +:+ a2, advance_randbits (advance_randbits w))
    /\ (well_formed p1 -> well_formed p2 -> well_formed (a1 +:+ a2)).
Proof.
  intros H1 H2.
  destruct (random_choice_nonempty (list_of_str p1) w (list_of_str_nonempty p1 H1))
    as (a1 & Ha1 & Hc1).
  destruct (random_choice_nonempty (list_of_str p2) (advance_randbits w)
              (list_of_str_nonempty p2 H2)) as (a2 & Ha2 & Hc2).
  exists a1, a2. split; [exact Ha1 |]. split; [exact Ha2 |]. split.
  - unfold generateOffspring, mbind, M_bind. rewrite Hc1, Hc2. reflexivity.
  - intros Hwf1 Hwf2.
    destruct (list_of_str_well_formed p1 Hwf1) as (x1 & y1 & E1 & Hx1 & Hy1).
    destruct (list_of_str_well_formed p2 Hwf2) as (x2 & y2 & E2 & Hx2 & Hy2).
    rewrite E1 in Ha1. rewrite E2 in Ha2.
    assert (Hal1 : is_allele a1).
    { apply list_elem_of_lookup_2 in Ha1. apply elem_of_cons in Ha1 as [-> | Ha1]; [exact Hx1 |].
      apply list_elem_of_singleton in Ha1 as ->. exact Hy1. }
    assert (Hal2 : is_allele a2).
    { apply list_elem_of_lookup_2 in Ha2. apply elem_of_cons in Ha2 as [-> | Ha2]; [exact Hx2 |].
      apply list_elem_of_singleton in Ha2 as ->. exact Hy2. }
    exists a1, a2. auto.
Qed.

Lemma generateOffspring_from_parents_witness :
  generateOffspring "Aa" "aa" demo_world
  = Ok ("aa", advance_randbits (advance_randbits demo_world)).
Proof.
  destruct (generateOffspring_from_parents "Aa" "aa" demo_world
              ltac:(discriminate) ltac:(discriminate)) as (a1 & a2 & Ha1 & Ha2 & Hrun & _).
  cbn in Ha1, Ha2. injection Ha1 as <-. injection Ha2 as <-. exact Hrun.
Defined.

(** The child of two homozygous parents. *)
Lemma homozygous_child (a b : string) (w : World) :
  is_allele a -> is_allele b ->
  generateOffspring (a +:+ a) (b +:+ b) w
  = Ok (a +:+ b, advance_randbits (advance_randbits w)).
Proof.
  intros Ha Hb.
  assert (Hletters : forall x, is_allele x -> list_of_str (x +:+ x) = [x; x])
    by (intros x [-> | ->]; reflexivity).
  assert (Hsame : forall (x y : string) i, [x; x] !! i = Some y -> y = x).
  { intros x y [| [| i]] H; cbn in H; [congruence | congruence | discriminate H]. }
  unfold generateOffspring. rewrite (Hletters a Ha), (Hletters b Hb).
  destruct (random_choice_nonempty [a; a] w ltac:(discriminate)) as (a1 & Ha1 & Hc1).
  destruct (random_choice_nonempty [b; b] (advance_randbits w) ltac:(discriminate))
    as (a2 & Ha2 & Hc2).
  apply Hsame in Ha1 as ->. apply Hsame in Ha2 as ->.
  unfold mbind, M_bind. rewrite Hc1, Hc2. reflexivity.
Qed.

(** X7: two homozygous parents leave no choice: the child carries the
    allele of the first parent followed by the allele of the second,
    whatever the random draws. *)
Theorem generateOffspring_homozygous (a b : string) (w : World) :
  is_allele a -> is_allele b ->
  generateOffspring (a +:+ a) (b +:+ b) w
  = Ok (a +:+ b, advance_randbits (advance_randbits w)).
Proof. apply homozygous_child. Qed.

Lemma generateOffspring_homozygous_witness :
  generateOffspring "AA" "aa" demo_world
  = Ok ("Aa", advance_randbits (advance_randbits demo_world)).
Proof.
  apply (generateOffspring_homozygous "A" "a" demo_world); [left | right]; reflexivity.
Defined.

(** X8: two heterozygous parents can have a child of each of the four
    genotypes. *)
Theorem generateOffspring_heterozygous_onto (p1 p2 child : string) :
  isHet p1 = true -> isHet p2 = true -> well_formed child ->
  exists w w', generateOffspring p1 p2 w = Ok (child, w').
Proof.
  intros H1 H2 Hchild.
  destruct (proj1 (proj2 (classified_genotype p1)) H1) as [-> | ->];
    destruct (proj1 (proj2 (classified_genotype p2)) H2) as [-> | ->];
    apply well_formed_cases in Hchild as [-> | [-> | [-> | ->]]];
    first [ exists (bits_world 0 0); eexists; reflexivity
          | exists (bits_world 0 1); eexists; reflexivity
          | exists (bits_world 1 0); eexists; reflexivity
          | exists (bits_world 1 1); eexists; reflexivity ].
Qed.

Lemma generateOffspring_heterozygous_onto_witness :
  exists w w', generateOffspring "Aa" "aA" w = Ok ("aa", w').
Proof.
  apply (generateOffspring_heterozygous_onto "Aa" "aA" "aa");
    [reflexivity | reflexivity | apply well_formed_cases; auto].
Defined.

(** X9: [generateOffspring] raises [IndexError] when a parent is the
    empty string. *)
Theorem generateOffspring_empty_parent (p1 p2 : string) (w : World) :
  p1 = "" \/ p2 = "" ->
  generateOffspring p1 p2 w = Raise IndexError.
Proof.
  intros Hempty. unfold generateOffspring, mbind, M_bind.
  destruct p1 as [| c1 rest1].
  - reflexivity.
  - destruct Hempty as [Hempty | ->]; [discriminate Hempty |].
    destruct (random_choice_nonempty (list_of_str (String c1 rest1)) w
                ltac:(discriminate)) as (a1 & _ & ->).
    reflexivity.
Qed.

Lemma generateOffspring_empty_parent_witness :
  generateOffspring "Aa" "" demo_world = Raise IndexError.
Proof.
  apply (generateOffspring_empty_parent "Aa" "" demo_world). right. reflexivity.
Defined.

Lemma py_round_Qeq x y : (x == y)%Q -> py_round x = py_round y.
Proof.
  intros Hxy. unfold py_round.
  rewrite (Qfloor_comp x y Hxy).
  assert (Hcmp : (x - inject_Z (Qfloor y) ?= 1 # 2)%Q = (y - inject_Z (Qfloor y) ?= 1 # 2)%Q).
  { apply Qcompare_comp; [rewrite Hxy |]; reflexivity. }
  rewrite Hcmp. reflexivity.
Qed.

(** X10: with a standard deviation of 0 the offspring count is
    constant: [howManyOffspring] returns the rounded mean, whatever the
    normal deviate. *)
Theorem howManyOffspring_constant (P : Params) (w : World) :
  (OFFSPRING_N_STD P == 0)%Q ->
  howManyOffspring P w = Ok (py_round (OFFSPRING_N_MEAN P), advance_normal w).
Proof.
  intros Hstd. unfold howManyOffspring, mbind, M_bind, np_random_normal.
  rewrite Qltb_false by (rewrite Hstd; apply Qle_refl).
  unfold mret, M_ret.
  rewrite (py_round_Qeq _ (OFFSPRING_N_MEAN P)); [reflexivity |].
  rewrite Hstd. ring.
Qed.

Lemma howManyOffspring_constant_witness :
  howManyOffspring constant_params demo_world = Ok (3, advance_normal demo_world).
Proof.
  apply (howManyOffspring_constant constant_params demo_world). reflexivity.
Defined.

(** ** The generation loop *)

Lemma map_const_seq {A : Type} (x : A) n : forall a,
  map (fun _ : nat => x) (seq a n) = repeat x n.
Proof.
  induction n as [| n IH]; intros a; cbn; [reflexivity |]. rewrite IH. reflexivity.
Qed.

(** X11: with no generation to run the script changes nothing: the
    population is still the initial one, [N_INITIAL_ORGANISMS] copies of
    "Aa" (none for a non-positive count), no random number is drawn, the
    history is empty and so are all six series. *)
Theorem simulate_no_generations (P : Params) (fuel : nat) (w : World) :
  N_GENERATIONS P <= 0 ->
  simulate P fuel w = Ok (initial_state P, w)
  /\ CURRENT_POPULATION (initial_state P) = repeat "Aa" (Z.to_nat (N_INITIAL_ORGANISMS P))
  /\ GENERATIONAL_DATA (initial_state P) = []
  /\ statistics (GENERATIONAL_DATA (initial_state P)) = Ok empty_series.
Proof.
  intros Hn. split.
  - unfold simulate, run_generations. rewrite (range_nonpositive _ Hn). reflexivity.
  - split; [| split; reflexivity].
    cbn. unfold range. apply map_const_seq.
Qed.

Lemma simulate_no_generations_witness :
  simulate constant_params 0 demo_world
  = Ok ({| CURRENT_POPULATION := ["Aa"; "Aa"; "Aa"]; GENERATIONAL_DATA := [] |}, demo_world).
Proof.
  apply (proj1 (simulate_no_generations constant_params 0 demo_world ltac:(cbn; lia))).
Defined.

Lemma survival_pass_sublist P population : forall w population' w',
  survival_pass P population w = Ok (population', w') ->
  population' `sublist_of` population.
Proof.
  induction population as [| genotype rest IH]; intros w population' w' Hrun;
    cbn [survival_pass] in Hrun.
  - apply ret_Ok in Hrun. injection Hrun as -> _. constructor.
  - apply bind_Ok in Hrun. destruct Hrun as (alive & w1 & _ & Hrun).
    apply bind_Ok in Hrun. destruct Hrun as (rest' & w2 & Hrest & Hrun).
    apply ret_Ok in Hrun. injection Hrun as -> _.
    pose proof (IH _ _ _ Hrest) as Hsub.
    destruct alive; [apply sublist_skip | apply sublist_cons]; exact Hsub.
Qed.

Lemma enforce_capacity_sublist P fuel : forall population w population' w',
  enforce_capacity P fuel population w = Ok (population', w') ->
  population' `sublist_of` population.
Proof.
  induction fuel as [| fuel IH]; intros population w population' w' Hrun; [discriminate |].
  cbn [enforce_capacity] in Hrun.
  destruct (Z.of_nat (length population) >? CARRYING_CAPACITY P).
  - apply bind_Ok in Hrun. destruct Hrun as (p1 & w1 & Hpass & Hrun).
    transitivity p1; [exact (IH _ _ _ _ Hrun) | exact (survival_pass_sublist _ _ _ _ _ Hpass)].
  - apply ret_Ok in Hrun. injection Hrun as -> _. reflexivity.
Qed.

(** The steps of a completed iteration of the main loop. *)
Lemma generation_steps P fuel generation_num st w st' w' :
  generation P fuel generation_num st w = Ok (st', w') ->
  exists population l1 l2 w2 w3,
    GENERATIONAL_DATA st' = GENERATIONAL_DATA st ++ [population]
    /\ population `sublist_of` CURRENT_POPULATION st
    /\ Z.of_nat (length population) <= CARRYING_CAPACITY P
    /\ mating_groups (length population) w2 = Ok ((l1, l2), w3)
    /\ reproduce P population l1 l2 w3 = Ok (CURRENT_POPULATION st', w').
Proof.
  unfold generation. intros H.
  apply bind_Ok in H. destruct H as (p1 & w1 & Hpass & H).
  apply bind_Ok in H. destruct H as (population & w2 & Hcap & H).
  apply bind_Ok in H. destruct H as ([l1 l2] & w3 & Hgroups & H).
  apply bind_Ok in H. destruct H as (NEW & w4 & Hnew & H).
  apply ret_Ok in H. injection H as -> ->. cbn [fst snd] in Hnew.
  exists population, l1, l2, w2, w3. cbn.
  split; [reflexivity |]. split.
  - transitivity p1; [exact (enforce_capacity_sublist _ _ _ _ _ _ Hcap)
                     | exact (survival_pass_sublist _ _ _ _ _ Hpass)].
  - split; [exact (proj2 (enforce_capacity_Ok _ _ _ _ _ _ Hcap)) |].
    split; assumption.
Qed.

(** X12: after a completed simulation no recorded generation is larger
    than [CARRYING_CAPACITY]. *)
Theorem recorded_sizes_within_capacity (P : Params) (fuel : nat) (w : World) st w' :
  simulate P fuel w = Ok (st, w') ->
  Forall (fun generation => Z.of_nat (length generation) <= CARRYING_CAPACITY P)
         (GENERATIONAL_DATA st).
Proof.
  unfold simulate, run_generations. intros Hrun.
  refine (for_each_invariant
            (fun _ s _ => Forall (fun generation =>
                                    Z.of_nat (length generation) <= CARRYING_CAPACITY P)
                                 (GENERATIONAL_DATA s))
            _ _ 0%nat _ _ _ _ _ _ Hrun).
  - intros i num s1 w1 s2 w2 _ Hinv Hgen.
    destruct (generation_steps _ _ _ _ _ _ _ Hgen)
      as (population & l1 & l2 & w3 & w4 & Hdata & _ & Hsize & _).
    rewrite Hdata. apply Forall_app. split; [exact Hinv |].
    constructor; [exact Hsize | constructor].
  - constructor.
Qed.

Lemma recorded_sizes_within_capacity_witness :
  match simulate demo_params 10 demo_world with
  | Ok (st, _) =>
      Forall (fun generation => Z.of_nat (length generation) <= 5) (GENERATIONAL_DATA st)
  | _ => False
  end.
Proof.
  pose proof (recorded_sizes_within_capacity demo_params 10%nat demo_world) as H.
  destruct (simulate demo_params 10 demo_world) as [[st w'] | e |] eqn:E.
  - apply (H st w' eq_refl).
  - vm_compute in E. discriminate E.
  - vm_compute in E. discriminate E.
Defined.

(** X13: the history is append-only: running [n] more generations
    leaves the records already in the history as they are and adds [n]
    new ones after them. *)
Theorem history_append_only (P : Params) (fuel : nat) (n : Z) st w st' w' :
  run_generations P fuel n st w = Ok (st', w') ->
  exists later,
    GENERATIONAL_DATA st' = GENERATIONAL_DATA st ++ later
    /\ length later = Z.to_nat n.
Proof.
  unfold run_generations. intros Hrun. rewrite <- (range_length n).
  refine (for_each_invariant
            (fun i s _ => exists later,
                 GENERATIONAL_DATA s = GENERATIONAL_DATA st ++ later /\ length later = i)
            _ _ 0%nat _ _ _ _ _ _ Hrun).
  - intros i num s1 w1 s2 w2 _ (later & Hdata & Hlen) Hgen.
    apply generation_history in Hgen as [population Hnew].
    exists (later ++ [population]). split.
    + rewrite Hnew, Hdata, app_assoc. reflexivity.
    + rewrite length_app; cbn. lia.
  - exists []. split; [rewrite app_nil_r; reflexivity | reflexivity].
Qed.

Lemma history_append_only_witness :
  match run_generations demo_params 10 2
          {| CURRENT_POPULATION := ["Aa"; "Aa"; "AA"]; GENERATIONAL_DATA := [["aa"]] |}
          demo_world with
  | Ok (st, _) =>
      exists later, GENERATIONAL_DATA st = [["aa"]] ++ later /\ length later = 2%nat
  | _ => False
  end.
Proof.
  pose proof (history_append_only demo_params 10%nat 2
                {| CURRENT_POPULATION := ["Aa"; "Aa"; "AA"];
                   GENERATIONAL_DATA := [["aa"]] |} demo_world) as H.
  destruct (run_generations demo_params 10 2 _ demo_world) as [[st w'] | e |] eqn:E.
  - apply (H st w' eq_refl).
  - vm_compute in E. discriminate E.
  - vm_compute in E. discriminate E.
Defined.

(** X14: selection and capacity enforcement only remove organisms: the
    population recorded for a generation is a subsequence, in order, of
    the population that entered it. *)
Theorem recorded_is_subsequence (P : Params) (fuel generation_num : nat) st w st' w' :
  generation P fuel generation_num st w = Ok (st', w') ->
  exists population,
    GENERATIONAL_DATA st' = GENERATIONAL_DATA st ++ [population]
    /\ population `sublist_of` CURRENT_POPULATION st
    /\ (length population <= length (CURRENT_POPULATION st))%nat.
Proof.
  intros Hgen.
  destruct (generation_steps _ _ _ _ _ _ _ Hgen)
    as (population & l1 & l2 & w2 & w3 & Hdata & Hsub & _).
  exists population. split; [exact Hdata |]. split; [exact Hsub |].
  apply sublist_length, Hsub.
Qed.

Lemma recorded_is_subsequence_witness :
  match generation demo_params 10 0
          {| CURRENT_POPULATION := ["Aa"; "AA"; "aa"; "aA"]; GENERATIONAL_DATA := [] |}
          demo_world with
  | Ok (st, _) =>
      exists population,
        GENERATIONAL_DATA st = [] ++ [population]
        /\ population `sublist_of` ["Aa"; "AA"; "aa"; "aA"]
        /\ (length population <= 4)%nat
  | _ => False
  end.
Proof.
  pose proof (recorded_is_subsequence demo_params 10%nat 0%nat
                {| CURRENT_POPULATION := ["Aa"; "AA"; "aa"; "aA"];
                   GENERATIONAL_DATA := [] |} demo_world) as H.
  destruct (generation demo_params 10 0 _ demo_world) as [[st w'] | e |] eqn:E.
  - apply (H st w' eq_refl).
  - vm_compute in E. discriminate E.
  - vm_compute in E. discriminate E.
Defined.

(** ** Certain survival *)

Lemma survivors_all P tape population : forall pos,
  (forall n, (tape n < 1)%Q) ->
  (1 <= HOM_DOM_SURV_PROB P)%Q -> (1 <= HET_SURV_PROB P)%Q -> (1 <= HOM_REC_SURV_PROB P)%Q ->
  Forall well_formed population ->
  survivors P tape pos population = population.
Proof.
  intros pos Htape Hd Hh Hr Hwf. revert pos.
  induction Hwf as [| genotype rest Hg Hrest IH]; intros pos; cbn [survivors]; [reflexivity |].
  assert (Halive : forall p, survival_probability P genotype = Some p ->
                             Qltb (tape pos) p = true).
  { intros p Hp. apply Qltb_spec. specialize (Htape pos).
    apply well_formed_cases in Hg.
    destruct Hg as [-> | [-> | [-> | ->]]]; cbn in Hp; injection Hp as <-; lra. }
  destruct (well_formed_probability P genotype Hg) as [p Hp].
  rewrite Hp, (Halive p Hp), IH. reflexivity.
Qed.

(** X15: the hazard the script's comment warns of: when all three
    survival probabilities are 1 or more, a survival pass keeps every
    organism, so on a population above the carrying capacity the
    capacity loop never exits. *)
Theorem certain_survival_hangs (P : Params) (population : list string) (w : World) :
  (1 <= HOM_DOM_SURV_PROB P)%Q -> (1 <= HET_SURV_PROB P)%Q -> (1 <= HOM_REC_SURV_PROB P)%Q ->
  (forall n, (uniform_tape w n < 1)%Q) ->
  Forall well_formed population ->
  Z.of_nat (length population) > CARRYING_CAPACITY P ->
  survival_pass P population w = Ok (population, skip_uniform (length population) w)
  /\ forall fuel, enforce_capacity P fuel population w = OutOfFuel.
Proof.
  intros Hd Hh Hr Htape Hwf Hgt. split.
  - rewrite (survival_pass_well_formed P population w Hwf).
    rewrite (survivors_all P _ population _ Htape Hd Hh Hr Hwf). reflexivity.
  - intros fuel. revert w Htape.
    induction fuel as [| fuel IH]; intros w Htape; [reflexivity |].
    rewrite (enforce_capacity_step P fuel population w Hwf Hgt).
    rewrite (survivors_all P _ population _ Htape Hd Hh Hr Hwf).
    apply IH. intros n. cbn. apply Htape.
Qed.

Lemma certain_survival_hangs_witness :
  enforce_capacity certain_params 1000 ["Aa"; "aa"] demo_world = OutOfFuel.
Proof.
  apply (proj2 (certain_survival_hangs certain_params ["Aa"; "aa"] demo_world
                  ltac:(cbn; lra) ltac:(cbn; lra) ltac:(cbn; lra)
                  ltac:(intros n; cbn; destruct (Nat.even n); lra)
                  ltac:(repeat constructor; apply well_formed_cases; auto)
                  ltac:(cbn; lia))).
Defined.

(** ** Offspring numbers *)

Lemma random_shuffle_length {A : Type} (x : list A) w x' w' :
  random_shuffle x w = Ok (x', w') -> length x' = length x.
Proof.
  intros Hrun. destruct (random_shuffle_perm x w) as (x0 & w0 & Hrun0 & Hperm).
  rewrite Hrun in Hrun0. injection Hrun0 as <- _.
  apply Permutation_length, Hperm.
Qed.

Lemma mating_groups_lengths n w l1 l2 w' :
  mating_groups n w = Ok ((l1, l2), w') ->
  length l1 = Nat.div2 (S n) /\ length l2 = Nat.div2 n.
Proof.
  unfold mating_groups. intros H.
  apply bind_Ok in H. destruct H as (l & w1 & Hshuffle & H).
  apply ret_Ok in H. injection H as -> -> _.
  apply random_shuffle_length in Hshuffle. rewrite length_seq in Hshuffle.
  rewrite slice_step2_0, every_other_length, slice_step2_1_length, Hshuffle. auto.
Qed.

Lemma produce_offspring_appends population l1 l2 pairnum offspringnum NEW w NEW' w' :
  produce_offspring population l1 l2 pairnum offspringnum NEW w = Ok (NEW', w') ->
  exists child, NEW' = NEW ++ [child].
Proof.
  unfold produce_offspring. intros H. bind_inv H.
  apply ret_Ok in H. injection H as -> _. eauto.
Qed.

(** A completed pair adds as many offspring as [howManyOffspring]
    returned, after the offspring already there. *)
Lemma mate_pair_appends P population l1 l2 pairnum NEW w NEW' w' :
  mate_pair P population l1 l2 pairnum NEW w = Ok (NEW', w') ->
  exists n w1 children,
    howManyOffspring P w = Ok (n, w1)
    /\ NEW' = NEW ++ children
    /\ length children = Z.to_nat n.
Proof.
  unfold mate_pair. intros H.
  apply bind_Ok in H. destruct H as (n & w1 & Hdraw & Hloop).
  exists n, w1.
  assert (Hinv : exists children,
             NEW' = NEW ++ children /\ length children = (0 + length (range n))%nat).
  { refine (for_each_invariant
              (fun i s _ => exists children, s = NEW ++ children /\ length children = i)
              _ _ 0%nat _ _ _ _ _ _ Hloop).
    - intros i x s1 w2 s2 w3 _ (children & -> & Hlen) Hbody.
      apply produce_offspring_appends in Hbody as [child ->].
      exists (children ++ [child]). split; [rewrite app_assoc; reflexivity |].
      rewrite length_app; cbn. lia.
    - exists []. split; [rewrite app_nil_r; reflexivity | reflexivity]. }
  destruct Hinv as (children & Hnew & Hlen). rewrite range_length in Hlen.
  exists children. auto.
Qed.

(** X16: a completed pair adds exactly as many offspring as
    [howManyOffspring] returned (none for a count of 0 or less), after
    the offspring already produced, which it leaves as they are. *)
Theorem mate_pair_offspring_count (P : Params) population l1 l2 pairnum
    (NEW_POPULATION : list string) (w : World) NEW_POPULATION' w' :
  mate_pair P population l1 l2 pairnum NEW_POPULATION w = Ok (NEW_POPULATION', w') ->
  exists n w1 children,
    howManyOffspring P w = Ok (n, w1)
    /\ NEW_POPULATION' = NEW_POPULATION ++ children
    /\ length children = Z.to_nat n.
Proof. apply mate_pair_appends. Qed.

Lemma mate_pair_offspring_count_witness :
  match mate_pair demo_params ["Aa"; "AA"] [1%nat] [0%nat] 0 ["aa"] demo_world with
  | Ok (NEW_POPULATION', _) =>
      exists n w1 children,
        howManyOffspring demo_params demo_world = Ok (n, w1)
        /\ NEW_POPULATION' = ["aa"] ++ children
        /\ length children = Z.to_nat n
  | _ => False
  end.
Proof.
  pose proof (mate_pair_offspring_count demo_params ["Aa"; "AA"] [1%nat] [0%nat] 0%nat
                ["aa"] demo_world) as H.
  destruct (mate_pair demo_params _ _ _ 0 _ demo_world) as [[NEW' w'] | e |] eqn:E.
  - apply (H NEW' w' eq_refl).
  - vm_compute in E. discriminate E.
  - vm_compute in E. discriminate E.
Defined.

(** The size of the next generation when every pair has [m] offspring. *)
Lemma reproduce_constant_size P population l1 l2 m w NEW w' :
  (forall w1, exists w2, howManyOffspring P w1 = Ok (m, w2)) ->
  reproduce P population l1 l2 w = Ok (NEW, w') ->
  length NEW = (min (length l1) (length l2) * Z.to_nat m)%nat.
Proof.
  intros Hconst. unfold reproduce. intros Hrun.
  rewrite <- (Nat2Z.id (min (length l1) (length l2))) at 1.
  rewrite <- (range_length (Z.of_nat (min (length l1) (length l2)))).
  refine (for_each_invariant
            (fun i s _ => length s = (i * Z.to_nat m)%nat)
            _ _ 0%nat _ _ _ _ _ _ Hrun).
  - intros i x s1 w1 s2 w2 _ Hlen Hbody.
    apply mate_pair_appends in Hbody as (n & w3 & children & Hdraw & -> & Hchildren).
    destruct (Hconst w1) as [w4 Hm]. rewrite Hm in Hdraw. injection Hdraw as <- _.
    rewrite length_app, Hlen, Hchildren. cbn. lia.
  - reflexivity.
Qed.

(** X17: fewer than two survivors leave no offspring: when the
    population recorded for a generation has at most one organism, the
    next generation starts empty. *)
Theorem lone_survivor_has_no_offspring (P : Params) (fuel generation_num : nat)
    st w st' w' :
  generation P fuel generation_num st w = Ok (st', w') ->
  exists population,
    GENERATIONAL_DATA st' = GENERATIONAL_DATA st ++ [population]
    /\ ((length population < 2)%nat -> CURRENT_POPULATION st' = []).
Proof.
  intros Hgen.
  destruct (generation_steps _ _ _ _ _ _ _ Hgen)
    as (population & l1 & l2 & w2 & w3 & Hdata & _ & _ & Hgroups & Hnew).
  exists population. split; [exact Hdata |]. intros Hlone.
  destruct (mating_groups_lengths _ _ _ _ _ Hgroups) as [_ Hl2].
  assert (Hnone : length l2 = 0%nat).
  { rewrite Hl2. destruct (length population) as [| [| n]]; [reflexivity | reflexivity | lia]. }
  unfold reproduce in Hnew. rewrite Hnone, Nat.min_0_r in Hnew.
  apply ret_Ok in Hnew. injection Hnew as <- _. reflexivity.
Qed.

Lemma lone_survivor_has_no_offspring_witness :
  match generation demo_params 10 0
          {| CURRENT_POPULATION := ["Aa"]; GENERATIONAL_DATA := [] |} demo_world with
  | Ok (st, _) => GENERATIONAL_DATA st = [["Aa"]] /\ CURRENT_POPULATION st = []
  | _ => False
  end.
Proof.
  pose proof (lone_survivor_has_no_offspring demo_params 10%nat 0%nat
                {| CURRENT_POPULATION := ["Aa"]; GENERATIONAL_DATA := [] |}
                demo_world) as H.
  destruct (generation demo_params 10 0 _ demo_world) as [[st w'] | e |] eqn:E.
  - destruct (H st w' eq_refl) as (population & Hdata & Hempty).
    assert (Hst : GENERATIONAL_DATA st = [["Aa"]]).
    { vm_compute in E. injection E as <- _. reflexivity. }
    split; [exact Hst |]. apply Hempty.
    rewrite Hst in Hdata. cbn in Hdata. injection Hdata as <-. cbn. lia.
  - vm_compute in E. discriminate E.
  - vm_compute in E. discriminate E.
Defined.

(** X18: with the offspring count held constant (standard deviation 0)
    population growth is deterministic: the next generation has
    [round(OFFSPRING_N_MEAN)] organisms (none if that is negative) for
    each of the [n / 2] pairs formed from the [n] recorded survivors. *)
Theorem constant_offspring_growth (P : Params) (fuel generation_num : nat) st w st' w' :
  (OFFSPRING_N_STD P == 0)%Q ->
  generation P fuel generation_num st w = Ok (st', w') ->
  exists population,
    GENERATIONAL_DATA st' = GENERATIONAL_DATA st ++ [population]
    /\ length (CURRENT_POPULATION st')
       = (length population / 2 * Z.to_nat (py_round (OFFSPRING_N_MEAN P)))%nat.
Proof.
  intros Hstd Hgen.
  destruct (generation_steps _ _ _ _ _ _ _ Hgen)
    as (population & l1 & l2 & w2 & w3 & Hdata & _ & _ & Hgroups & Hnew).
  exists population. split; [exact Hdata |].
  destruct (mating_groups_lengths _ _ _ _ _ Hgroups) as [Hl1 Hl2].
  rewrite (reproduce_constant_size P population l1 l2 (py_round (OFFSPRING_N_MEAN P))
             w3 _ w').
  - rewrite Hl1, Hl2, div2_succ, Nat.div2_div. f_equal. lia.
  - intros w1. eexists. unfold howManyOffspring, mbind, M_bind, np_random_normal.
    rewrite Qltb_false by (rewrite Hstd; apply Qle_refl).
    unfold mret, M_ret.
    rewrite (py_round_Qeq _ (OFFSPRING_N_MEAN P)); [reflexivity |].
    rewrite Hstd. ring.
  - exact Hnew.
Qed.

Lemma constant_offspring_growth_witness :
  match generation constant_params 10 0
          {| CURRENT_POPULATION := ["Aa"; "Aa"; "AA"; "aa"; "aA"];
             GENERATIONAL_DATA := [] |} demo_world with
  | Ok (st, _) =>
      exists population,
        GENERATIONAL_DATA st = [] ++ [population]
        /\ length (CURRENT_POPULATION st) = (length population / 2 * 3)%nat
  | _ => False
  end.
Proof.
  pose proof (constant_offspring_growth constant_params 10%nat 0%nat
                {| CURRENT_POPULATION := ["Aa"; "Aa"; "AA"; "aa"; "aA"];
                   GENERATIONAL_DATA := [] |} demo_world ) as H.
  destruct (generation constant_params 10 0 _ demo_world) as [[st w'] | e |] eqn:E.
  - apply (H st w' ltac:(reflexivity) eq_refl).
  - vm_compute in E. discriminate E.
  - vm_compute in E. discriminate E.
Defined.

(** ** The figures of a generation *)

Lemma count_organism_nonneg c organism :
  (0 <= n_hom_dom c /\ 0 <= n_het c /\ 0 <= n_hom_rec c) ->
  let c' := count_organism c organism in
  0 <= n_hom_dom c' /\ 0 <= n_het c' /\ 0 <= n_hom_rec c'.
Proof.
  intros (H1 & H2 & H3). unfold count_organism.
  destruct (isHomDom organism); [cbn; lia |].
  destruct (isHomRec organism); [cbn; lia |].
  destruct (isHet organism); cbn; lia.
Qed.

Lemma fold_count_nonneg generation : forall c,
  (0 <= n_hom_dom c /\ 0 <= n_het c /\ 0 <= n_hom_rec c) ->
  let c' := fold_left count_organism generation c in
  0 <= n_hom_dom c' /\ 0 <= n_het c' /\ 0 <= n_hom_rec c'.
Proof.
  induction generation as [| organism rest IH]; intros c Hc; cbn [fold_left]; [exact Hc |].
  apply IH, count_organism_nonneg, Hc.
Qed.

(** The counters and the guarded totals of a generation: either nothing
    was classified and both totals are replaced by 1, or the totals are
    the number of classified organisms and twice that number. *)
Lemma totals_cases generation :
  let c := count_generation generation in
  (n_hom_dom c = 0 /\ n_het c = 0 /\ n_hom_rec c = 0
   /\ n_dom_allele c = 0 /\ n_rec_allele c = 0
   /\ genotype_total generation = 1 /\ allele_total generation = 1)
  \/ (0 < classified c
      /\ 0 <= n_hom_dom c /\ 0 <= n_het c /\ 0 <= n_hom_rec c
      /\ n_dom_allele c = 2 * n_hom_dom c + n_het c
      /\ n_rec_allele c = 2 * n_hom_rec c + n_het c
      /\ genotype_total generation = classified c
      /\ allele_total generation = 2 * classified c).
Proof.
  intros c.
  destruct (fold_count_accounting generation zero_counters ltac:(split; reflexivity))
    as [Hdom Hrec].
  destruct (fold_count_nonneg generation zero_counters ltac:(cbn; lia)) as (H1 & H2 & H3).
  fold (count_generation generation) in Hdom, Hrec, H1, H2, H3. fold c in Hdom, Hrec, H1, H2, H3.
  unfold genotype_total, allele_total, guarded_totals, classified. fold c.
  destruct (n_hom_dom c + n_het c + n_hom_rec c =? 0) eqn:Hg.
  - left. cbn. repeat split; lia.
  - destruct (n_dom_allele c + n_rec_allele c =? 0) eqn:Ha; [lia |].
    right. cbn. repeat split; lia.
Qed.

Lemma percentage_value count total :
  (percentage count total == 100 * inject_Z count / inject_Z total)%Q.
Proof.
  unfold percentage. rewrite Qred_correct, inject_Z_mult. reflexivity.
Qed.

(** The row that the statistics loop records for a generation of the
    history. *)
Lemma statistics_row (data : list (list string)) i generation :
  data !! i = Some generation ->
  exists s,
    statistics data = Ok s
    /\ series_row s i
       = Some {| row_hom_dom := percentage (n_hom_dom (count_generation generation))
                                           (genotype_total generation);
                 row_het := percentage (n_het (count_generation generation))
                                       (genotype_total generation);
                 row_hom_rec := percentage (n_hom_rec (count_generation generation))
                                           (genotype_total generation);
                 row_dom_allele := percentage (n_dom_allele (count_generation generation))
                                              (allele_total generation);
                 row_rec_allele := percentage (n_rec_allele (count_generation generation))
                                              (allele_total generation);
                 row_total := genotype_total generation |}.
Proof.
  intros Hi. exists (fold_left append_row data empty_series).
  split; [apply statistics_ok |].
  pose proof (fold_append_row_at data empty_series 0 i generation empty_series_length Hi)
    as (H1 & H2 & H3 & H4 & H5 & H6).
  unfold series_row. cbn in H1, H2, H3, H4, H5, H6.
  rewrite H1, H2, H3, H4, H5, H6. reflexivity.
Qed.

(** X19: for a non-empty generation of well-formed organisms the zero
    guard does not fire: the denominators are the number of organisms
    and twice that number, the genotype counters add up to the one and
    the allele counters to the other, and the total recorded is the
    number of organisms. *)
Theorem recorded_total_is_size (data : list (list string)) (i : nat)
    (generation : list string) :
  data !! i = Some generation ->
  generation <> [] ->
  Forall well_formed generation ->
  exists s row,
    statistics data = Ok s
    /\ series_row s i = Some row
    /\ row_total row = Z.of_nat (length generation)
    /\ guarded_totals (count_generation generation)
       = (Z.of_nat (length generation), 2 * Z.of_nat (length generation))
    /\ n_hom_dom (count_generation generation) + n_het (count_generation generation)
       + n_hom_rec (count_generation generation) = Z.of_nat (length generation)
    /\ n_dom_allele (count_generation generation) + n_rec_allele (count_generation generation)
       = 2 * Z.of_nat (length generation).
Proof.
  intros Hi Hne Hwf.
  destruct (statistics_row data i generation Hi) as (s & Hs & Hrow).
  eexists s, _. split; [exact Hs |]. split; [exact Hrow |]. cbn.
  pose proof (count_generation_classified generation Hwf) as Hall.
  assert (Hpos : 0 < Z.of_nat (length generation))
    by (destruct generation; [congruence | cbn; lia]).
  destruct (totals_cases generation)
    as [(H1 & H2 & H3 & _) | (_ & _ & _ & _ & Hdom & Hrec & HT & HA)].
  { unfold classified in Hall. lia. }
  unfold genotype_total, allele_total in *.
  destruct (guarded_totals (count_generation generation)) as [gt at_] eqn:Htotals.
  cbn [fst snd] in *. unfold classified in *.
  split; [lia |]. split; [f_equal; lia |]. split; lia.
Qed.

Lemma recorded_total_is_size_witness :
  exists s row,
    statistics [[]; ["AA"; "Aa"; "aa"]] = Ok s
    /\ series_row s 1 = Some row
    /\ row_total row = 3.
Proof.
  destruct (recorded_total_is_size [[]; ["AA"; "Aa"; "aa"]] 1 ["AA"; "Aa"; "aa"]
              eq_refl ltac:(discriminate)
              ltac:(repeat constructor; apply well_formed_cases; auto))
    as (s & row & Hs & Hrow & Htotal & _).
  exists s, row. auto.
Defined.

Lemma share_bounds (a t : Q) :
  (0 <= a)%Q -> (a <= t)%Q -> (0 < t)%Q ->
  (0 <= 100 * a / t)%Q /\ (100 * a / t <= 100)%Q.
Proof.
  intros Ha Hle Ht. split.
  - apply Qle_shift_div_l; [exact Ht | lra].
  - apply Qle_shift_div_r; [exact Ht | lra].
Qed.

Lemma percentage_bounds count total :
  0 <= count -> count <= total -> 0 < total ->
  (0 <= percentage count total)%Q /\ (percentage count total <= 100)%Q.
Proof.
  intros H0 Hle Hpos. rewrite !percentage_value.
  apply share_bounds.
  - change 0%Q with (inject_Z 0). rewrite <- Zle_Qle. exact H0.
  - rewrite <- Zle_Qle. exact Hle.
  - change 0%Q with (inject_Z 0). rewrite <- Zlt_Qlt. exact Hpos.
Qed.

(** X20: whatever strings a recorded generation holds, its five
    percentages lie between 0 and 100. *)
Theorem percentages_in_range (data : list (list string)) (i : nat) (generation : list string) :
  data !! i = Some generation ->
  exists s row,
    statistics data = Ok s
    /\ series_row s i = Some row
    /\ (0 <= row_hom_dom row <= 100)%Q
    /\ (0 <= row_het row <= 100)%Q
    /\ (0 <= row_hom_rec row <= 100)%Q
    /\ (0 <= row_dom_allele row <= 100)%Q
    /\ (0 <= row_rec_allele row <= 100)%Q.
Proof.
  intros Hi.
  destruct (statistics_row data i generation Hi) as (s & Hs & Hrow).
  eexists s, _. split; [exact Hs |]. split; [exact Hrow |]. cbn.
  destruct (totals_cases generation)
    as [(H1 & H2 & H3 & H4 & H5 & HT & HA)
       | (Hpos & H1 & H2 & H3 & Hdom & Hrec & HT & HA)].
  - rewrite H1, H2, H3, H4, H5, HT, HA.
    assert (Hzero : (0 <= percentage 0 1 <= 100)%Q)
      by (change (percentage 0 1) with 0%Q; lra).
    tauto.
  - rewrite HT, HA, Hdom, Hrec. unfold classified in *.
    repeat split; apply percentage_bounds; lia.
Qed.

Lemma percentages_in_range_witness :
  exists s row,
    statistics [["AA"; "zz"; "aa"; "aA"]] = Ok s
    /\ series_row s 0 = Some row
    /\ (0 <= row_hom_dom row <= 100)%Q.
Proof.
  destruct (percentages_in_range [["AA"; "zz"; "aa"; "aA"]] 0 ["AA"; "zz"; "aa"; "aA"]
              eq_refl) as (s & row & Hs & Hrow & Hhd & _).
  exists s, row. auto.
Defined.


(** ** Selection *)

Lemma survivors_app P tape before : forall pos after,
  survivors P tape pos (before ++ after)
  = survivors P tape pos before ++ survivors P tape (pos + length before) after.
Proof.
  induction before as [| g rest IH]; intros pos after; cbn [app survivors length].
  - rewrite Nat.add_0_r. reflexivity.
  - rewrite (IH (S pos) after).
    replace (S pos + length rest)%nat with (pos + S (length rest))%nat by lia.
    destruct (survival_probability P g) as [q |]; [| reflexivity].
    destruct (Qltb (tape pos) q); reflexivity.
Qed.

(** X22: a survival pass over a well-formed population never fails; it
    reads exactly one uniform draw per organism, in population order,
    and no other random number; the organism at position [i] is kept
    exactly when the [i]-th of these draws is below the probability of
    its category, and the organisms kept stay in order. *)
Theorem survival_pass_draws (P : Params) (before after : list string)
    (genotype : string) (p : Q) (w : World) :
  Forall well_formed (before ++ genotype :: after) ->
  survival_probability P genotype = Some p ->
  exists kept_before kept_after,
    survival_pass P (before ++ genotype :: after) w
    = Ok (kept_before
          ++ (if Qltb (uniform_tape w (uniform_pos w + length before)%nat) p
              then [genotype] else [])
          ++ kept_after,
          skip_uniform (length (before ++ genotype :: after)) w)
    /\ kept_before `sublist_of` before
    /\ kept_after `sublist_of` after.
Proof.
  intros Hwf Hp.
  exists (survivors P (uniform_tape w) (uniform_pos w) before),
         (survivors P (uniform_tape w) (S (uniform_pos w + length before)) after).
  split; [| split; apply survivors_sublist].
  rewrite (survival_pass_well_formed P _ w Hwf), survivors_app.
  cbn [survivors]. rewrite Hp.
  destruct (Qltb _ p); reflexivity.
Qed.

Lemma survival_pass_draws_witness :
  exists kept_before kept_after,
    survival_pass demo_params ["Aa"; "AA"; "aa"] demo_world
    = Ok (kept_before ++ kept_after, skip_uniform 3 demo_world)
    /\ kept_before `sublist_of` ["Aa"]
    /\ kept_after `sublist_of` ["aa"].
Proof.
  destruct (survival_pass_draws demo_params ["Aa"] ["aa"] "AA" (99 # 100) demo_world
              ltac:(repeat constructor; apply well_formed_cases; auto) eq_refl)
    as (kept_before & kept_after & Hrun & Hbefore & Hafter).
  exists kept_before, kept_after. split; [exact Hrun |]. split; assumption.
Defined.

(** ** Termination of the whole simulation *)

(** More fuel does not change the outcome of a loop that exits. *)
Lemma enforce_capacity_more_fuel P fuel : forall fuel' population w result,
  enforce_capacity P fuel population w = Ok result ->
  (fuel <= fuel')%nat ->
  enforce_capacity P fuel' population w = Ok result.
Proof.
  induction fuel as [| fuel IH]; intros fuel' population w result Hrun Hle; [discriminate |].
  destruct fuel' as [| fuel']; [lia |]. cbn [enforce_capacity] in *.
  destruct (Z.of_nat (length population) >? CARRYING_CAPACITY P); [| exact Hrun].
  apply bind_Ok in Hrun. destruct Hrun as (p1 & w1 & Hpass & Hrun).
  apply bind_Ok. exists p1, w1. split; [exact Hpass |].
  apply (IH fuel' p1 w1 result Hrun). lia.
Qed.

Lemma generation_more_fuel P fuel fuel' generation_num st w result :
  generation P fuel generation_num st w = Ok result ->
  (fuel <= fuel')%nat ->
  generation P fuel' generation_num st w = Ok result.
Proof.
  unfold generation. intros H Hle.
  apply bind_Ok in H. destruct H as (p1 & w1 & Hpass & H).
  apply bind_Ok in H. destruct H as (population & w2 & Hcap & H).
  apply bind_Ok. exists p1, w1. split; [exact Hpass |].
  apply bind_Ok. exists population, w2. split; [| exact H].
  apply (enforce_capacity_more_fuel P fuel fuel' _ _ _ Hcap Hle).
Qed.

Lemma generations_more_fuel P fuel fuel' (nums : list nat) : forall st w result,
  for_each nums (generation P fuel) st w = Ok result ->
  (fuel <= fuel')%nat ->
  for_each nums (generation P fuel') st w = Ok result.
Proof.
  induction nums as [| num rest IH]; intros st w result Hrun Hle; cbn [for_each] in *;
    [exact Hrun |].
  apply bind_Ok in Hrun. destruct Hrun as (st1 & w1 & Hgen & Hrun).
  apply bind_Ok. exists st1, w1. split.
  - apply (generation_more_fuel P fuel fuel' _ _ _ _ Hgen Hle).
  - apply IH; assumption.
Qed.

Lemma swap_items_world {A : Type} (x : list A) i j w x' w' :
  swap_items x i j w = Ok (x', w') -> w' = w.
Proof.
  unfold swap_items, getitem. intros H.
  apply bind_Ok in H. destruct H as (xj & w1 & Hj & H).
  apply bind_Ok in H. destruct H as (xi & w2 & Hi & H).
  destruct (x !! j); [| discriminate Hj]. destruct (x !! i); [| discriminate Hi].
  apply ret_Ok in Hj. apply ret_Ok in Hi. apply ret_Ok in H. congruence.
Qed.

(** Shuffling reads the raw random integers only. *)
Lemma random_shuffle_uniform_tape {A : Type} (x : list A) w x' w' :
  random_shuffle x w = Ok (x', w') -> uniform_tape w' = uniform_tape w.
Proof.
  unfold random_shuffle. intros Hrun.
  refine (for_each_invariant (fun _ _ w1 => uniform_tape w1 = uniform_tape w)
            _ _ 0%nat _ _ _ _ _ _ Hrun); [| reflexivity].
  intros i k x1 w1 x2 w2 _ Htape Hbody.
  apply bind_Ok in Hbody. destruct Hbody as (j & w3 & Hj & Hswap).
  apply swap_items_world in Hswap as ->.
  unfold randbelow in Hj. injection Hj as _ <-. exact Htape.
Qed.

Lemma checkSurvival_world P genotype w alive w' :
  checkSurvival P genotype w = Ok (alive, w') -> w' = advance_uniform w.
Proof.
  unfold checkSurvival. intros H.
  apply bind_Ok in H. destruct H as (u & w1 & Hu & H).
  apply bind_Ok in H. destruct H as (q & w2 & Hq & H).
  unfold np_random_uniform in Hu. injection Hu as _ <-.
  unfold load_local in Hq. destruct (survival_probability P genotype); [| discriminate Hq].
  apply ret_Ok in Hq. injection Hq as _ ->.
  destruct (Qltb u q); apply ret_Ok in H; injection H as _ ->; reflexivity.
Qed.

(** Selection reads the uniform tape and leaves it as it is. *)
Lemma survival_pass_uniform_tape P population : forall w population' w',
  survival_pass P population w = Ok (population', w') ->
  uniform_tape w' = uniform_tape w.
Proof.
  induction population as [| genotype rest IH]; intros w population' w' Hrun;
    cbn [survival_pass] in Hrun.
  - apply ret_Ok in Hrun. injection Hrun as _ ->. reflexivity.
  - apply bind_Ok in Hrun. destruct Hrun as (alive & w1 & Hcheck & Hrun).
    apply bind_Ok in Hrun. destruct Hrun as (rest' & w2 & Hrest & Hrun).
    apply ret_Ok in Hrun. injection Hrun as _ ->.
    rewrite (IH _ _ _ Hrest). apply checkSurvival_world in Hcheck as ->. reflexivity.
Qed.

Lemma enforce_capacity_uniform_tape P fuel : forall population w population' w',
  enforce_capacity P fuel population w = Ok (population', w') ->
  uniform_tape w' = uniform_tape w.
Proof.
  induction fuel as [| fuel IH]; intros population w population' w' Hrun; [discriminate |].
  cbn [enforce_capacity] in Hrun.
  destruct (Z.of_nat (length population) >? CARRYING_CAPACITY P).
  - apply bind_Ok in Hrun. destruct Hrun as (p1 & w1 & Hpass & Hrun).
    rewrite (IH _ _ _ _ Hrun). exact (survival_pass_uniform_tape _ _ _ _ _ Hpass).
  - apply ret_Ok in Hrun. injection Hrun as _ ->. reflexivity.
Qed.

Section SimulationTermination.

Variable P : Params.
Hypothesis capacity_nonneg : 0 <= CARRYING_CAPACITY P.
Hypothesis deviation_nonneg : (0 <= OFFSPRING_N_STD P)%Q.

Lemma generateOffspring_total p1 p2 w :
  well_formed p1 -> well_formed p2 ->
  exists child,
    generateOffspring p1 p2 w = Ok (child, advance_randbits (advance_randbits w))
    /\ well_formed child.
Proof.
  intros H1 H2.
  destruct (list_of_str_well_formed p1 H1) as (x1 & y1 & E1 & Hx1 & Hy1).
  destruct (list_of_str_well_formed p2 H2) as (x2 & y2 & E2 & Hx2 & Hy2).
  assert (Hpick : forall (x y z : string) i, [x; y] !! i = Some z -> z = x \/ z = y).
  { intros x y z [| [| i]] H; cbn in H; [left | right | discriminate H]; congruence. }
  unfold generateOffspring. rewrite E1, E2.
  destruct (random_choice_nonempty [x1; y1] w ltac:(discriminate)) as (a1 & Ha1 & Hc1).
  destruct (random_choice_nonempty [x2; y2] (advance_randbits w) ltac:(discriminate))
    as (a2 & Ha2 & Hc2).
  exists (a1 +:+ a2). split.
  - unfold mbind, M_bind. rewrite Hc1, Hc2. reflexivity.
  - exists a1, a2.
    apply Hpick in Ha1 as [-> | ->]; apply Hpick in Ha2 as [-> | ->]; auto.
Qed.

Section Pairs.

Variables (population : list string) (l1 l2 : list nat) (w0 : World).
Hypothesis population_wf : Forall well_formed population.
Hypothesis l1_valid : Forall (fun i => (i < length population)%nat) l1.
Hypothesis l2_valid : Forall (fun i => (i < length population)%nat) l2.

Lemma produce_offspring_total pairnum offspringnum NEW w :
  (pairnum < length l1)%nat -> (pairnum < length l2)%nat ->
  reproduction_invariant w0 NEW w ->
  exists NEW' w',
    produce_offspring population l1 l2 pairnum offspringnum NEW w = Ok (NEW', w')
    /\ reproduction_invariant w0 NEW' w'.
Proof.
  intros Hp1 Hp2 [Hnew Htape]. unfold produce_offspring.
  destruct (lookup_lt_is_Some_2 l1 pairnum Hp1) as [i1 Hi1].
  destruct (lookup_lt_is_Some_2 l2 pairnum Hp2) as [i2 Hi2].
  pose proof (Forall_lookup_1 _ _ _ _ l1_valid Hi1) as Hlt1.
  pose proof (Forall_lookup_1 _ _ _ _ l2_valid Hi2) as Hlt2. cbn in Hlt1, Hlt2.
  destruct (lookup_lt_is_Some_2 population i1 Hlt1) as [p1 Hparent1].
  destruct (lookup_lt_is_Some_2 population i2 Hlt2) as [p2 Hparent2].
  destruct (generateOffspring_total p1 p2 w
              (Forall_lookup_1 _ _ _ _ population_wf Hparent1)
              (Forall_lookup_1 _ _ _ _ population_wf Hparent2)) as (child & Hrun & Hchild).
  exists (NEW ++ [child]), (advance_randbits (advance_randbits w)). split.
  - unfold mbind, M_bind, getitem. rewrite Hi1. cbn. rewrite Hparent1. cbn.
    rewrite Hi2. cbn. rewrite Hparent2. cbn. rewrite Hrun. reflexivity.
  - split; [| exact Htape].
    apply Forall_app. split; [exact Hnew |]. constructor; [exact Hchild | constructor].
Qed.

Lemma mate_pair_total pairnum NEW w :
  (pairnum < length l1)%nat -> (pairnum < length l2)%nat ->
  reproduction_invariant w0 NEW w ->
  exists NEW' w',
    mate_pair P population l1 l2 pairnum NEW w = Ok (NEW', w')
    /\ reproduction_invariant w0 NEW' w'.
Proof.
  intros Hp1 Hp2 Hinv. unfold mate_pair.
  destruct (for_each_total (reproduction_invariant w0)
              (produce_offspring population l1 l2 pairnum)
              (range (py_round (OFFSPRING_N_MEAN P
                                + OFFSPRING_N_STD P * normal_tape w (normal_pos w))%Q))
              NEW (advance_normal w))
    as (NEW' & w' & Hrun & Hinv').
  - intros offspringnum NEW1 w1 _ Hinv1. apply produce_offspring_total; assumption.
  - exact Hinv.
  - exists NEW', w'. split; [| exact Hinv'].
    unfold mbind, M_bind, howManyOffspring, np_random_normal.
    rewrite (Qltb_false _ _ deviation_nonneg). cbn. exact Hrun.
Qed.

Lemma reproduce_total w :
  uniform_tape w = uniform_tape w0 ->
  exists NEW w',
    reproduce P population l1 l2 w = Ok (NEW, w') /\ reproduction_invariant w0 NEW w'.
Proof.
  intros Htape. unfold reproduce.
  apply (for_each_total (reproduction_invariant w0)).
  - intros pairnum NEW1 w1 Hpair Hinv1.
    apply list_elem_of_In, in_seq in Hpair.
    apply mate_pair_total; [lia | lia | exact Hinv1].
  - split; [constructor | exact Htape].
Qed.

End Pairs.

(** Under fair draws one iteration of the main loop completes, given
    enough fuel, and keeps the state well-formed and the draws fair. *)
Lemma generation_total generation_num st w :
  state_well_formed st -> fair_draws P w ->
  exists fuel st' w',
    generation P fuel generation_num st w = Ok (st', w')
    /\ state_well_formed st' /\ fair_draws P w'.
Proof.
  intros [Hcur Hdata] Hfair.
  pose proof (survival_pass_well_formed P _ w Hcur) as Hpass.
  set (p1 := survivors P (uniform_tape w) (uniform_pos w) (CURRENT_POPULATION st)) in *.
  set (w1 := skip_uniform (length (CURRENT_POPULATION st)) w) in *.
  assert (Hwf1 : Forall well_formed p1) by (apply survivors_well_formed, Hcur).
  destruct (capacity_loop_terminates_bounded P capacity_nonneg (length p1) p1 w1
              (Nat.le_refl _) Hwf1 Hfair) as (fuel & population & w2 & Hcap & _).
  assert (Hwf : Forall well_formed population).
  { rewrite Forall_forall in Hwf1 |- *. intros g Hg. apply Hwf1.
    exact (sublist_subseteq _ _ (enforce_capacity_sublist _ _ _ _ _ _ Hcap) _ Hg). }
  assert (Htape2 : uniform_tape w2 = uniform_tape w)
    by exact (enforce_capacity_uniform_tape _ _ _ _ _ _ Hcap).
  destruct (random_shuffle_perm (seq 0 (length population)) w2)
    as (l & w3 & Hshuffle & Hperm).
  pose proof (random_shuffle_uniform_tape _ _ _ _ Hshuffle) as Htape3.
  assert (Hvalid : Forall (fun i => (i < length population)%nat)
                     (slice_step2 0 l ++ slice_step2 1 l)).
  { unfold slice_step2 at 1. cbn [drop]. rewrite <- every_other_split, Hperm.
    apply Forall_forall. intros i Hi. apply list_elem_of_In, in_seq in Hi. lia. }
  apply Forall_app in Hvalid as [Hl1 Hl2].
  destruct (reproduce_total population (slice_step2 0 l) (slice_step2 1 l) w3
              Hwf Hl1 Hl2 w3 eq_refl) as (NEW & w4 & Hnew & HNEW & Htape4).
  exists fuel. eexists _, w4. split; [| split].
  - unfold generation. apply bind_Ok. exists p1, w1. split; [exact Hpass |].
    apply bind_Ok. exists population, w2. split; [exact Hcap |].
    apply bind_Ok. exists (slice_step2 0 l, slice_step2 1 l), w3. split.
    { unfold mating_groups. apply bind_Ok. exists l, w3. split; [exact Hshuffle | reflexivity]. }
    apply bind_Ok. exists NEW, w4. split; [exact Hnew | reflexivity].
  - split; cbn; [exact HNEW |].
    apply Forall_app. split; [exact Hdata |]. constructor; [exact Hwf | constructor].
  - unfold fair_draws in *. rewrite Htape4, Htape3, Htape2. exact Hfair.
Qed.

Lemma generations_total (nums : list nat) : forall st w,
  state_well_formed st -> fair_draws P w ->
  exists fuel st' w', for_each nums (generation P fuel) st w = Ok (st', w').
Proof.
  induction nums as [| num rest IH]; intros st w Hst Hfair.
  - exists 0%nat, st, w. reflexivity.
  - destruct (generation_total num st w Hst Hfair) as (fuel1 & st1 & w1 & Hgen & Hst1 & Hfair1).
    destruct (IH st1 w1 Hst1 Hfair1) as (fuel2 & st' & w' & Hrest).
    exists (Nat.max fuel1 fuel2), st', w'. cbn [for_each].
    apply bind_Ok. exists st1, w1. split.
    + apply (generation_more_fuel P fuel1); [exact Hgen | lia].
    + apply (generations_more_fuel P fuel2); [exact Hrest | lia].
Qed.

End SimulationTermination.

(** X23: the simulation never hangs: for a non-negative carrying
    capacity and standard deviation, on every sequence of uniform draws
    in which draws at or above all three survival probabilities keep
    occurring, every capacity loop of the run exits, so that with
    enough fuel the run does not end out of fuel. *)
Theorem simulate_terminates_fair (P : Params) (w : World) :
  0 <= CARRYING_CAPACITY P ->
  (0 <= OFFSPRING_N_STD P)%Q ->
  fair_draws P w ->
  exists fuel, simulate P fuel w <> OutOfFuel.
Proof.
  intros Hcap Hstd Hfair.
  destruct (generations_total P Hcap Hstd (range (N_GENERATIONS P)) (initial_state P) w)
    as (fuel & st & w' & Hrun).
  - split; [apply initial_population_well_formed | constructor].
  - exact Hfair.
  - exists fuel. unfold simulate, run_generations. rewrite Hrun. discriminate.
Qed.

Lemma simulate_terminates_fair_witness :
  exists fuel, simulate demo_params fuel demo_world <> OutOfFuel.
Proof.
  apply (simulate_terminates_fair demo_params demo_world).
  - cbn. lia.
  - cbn. lra.
  - intros n. exists (S (2 * n)). split; [lia |].
    unfold lethal. cbn [demo_world uniform_tape].
    rewrite Nat.even_succ, Nat.odd_mul. cbn. lra.
Defined.

(** ** Strings that are not genotypes *)

(** X24: the three predicates recognise exactly the four two-letter
    genotypes: some predicate holds of a string if and only if it is
    one of "AA", "Aa", "aA" and "aa", and no string satisfies two of
    them. *)
Theorem classifiable_iff_well_formed (organism : string) :
  (classifiable organism = true <-> well_formed organism)
  /\ (isHomDom organism && isHet organism = false)
  /\ (isHomDom organism && isHomRec organism = false)
  /\ (isHet organism && isHomRec organism = false).
Proof.
  destruct (classified_genotype organism) as (Hd & Hh & Hr).
  split.
  - unfold classifiable. split.
    + intros H. apply well_formed_cases.
      apply orb_true_iff in H as [H | H];
        [apply orb_true_iff in H as [H | H] |].
      * left. exact (Hd H).
      * right. destruct (Hh H); auto.
      * right. right. right. exact (Hr H).
    + intros H. apply well_formed_cases in H.
      destruct H as [-> | [-> | [-> | ->]]]; reflexivity.
  - repeat split.
    + destruct (isHomDom organism) eqn:E1; [| reflexivity].
      rewrite (Hd eq_refl). reflexivity.
    + destruct (isHomDom organism) eqn:E1; [| reflexivity].
      rewrite (Hd eq_refl). reflexivity.
    + destruct (isHomRec organism) eqn:E1; [| apply andb_false_r].
      rewrite (Hr eq_refl). reflexivity.
Qed.

Lemma classifiable_iff_well_formed_witness :
  classifiable "aA" = true /\ ~ well_formed "Aaa".
Proof.
  split.
  - apply (proj2 (proj1 (classifiable_iff_well_formed "aA"))).
    apply well_formed_cases. auto.
  - intros Hwf.
    apply (proj1 (classifiable_iff_well_formed "Aaa")) in Hwf. discriminate Hwf.
Defined.

Lemma count_organism_unclassifiable c organism :
  classifiable organism = false -> count_organism c organism = c.
Proof.
  unfold classifiable, count_organism. intros H.
  apply orb_false_iff in H as [H Hr]. apply orb_false_iff in H as [Hd Hh].
  rewrite Hd, Hr, Hh. reflexivity.
Qed.

Lemma fold_count_filter generation : forall c,
  fold_left count_organism generation c
  = fold_left count_organism (List.filter classifiable generation) c.
Proof.
  induction generation as [| organism rest IH]; intros c; cbn [fold_left List.filter];
    [reflexivity |].
  destruct (classifiable organism) eqn:E; cbn [fold_left].
  - apply IH.
  - rewrite (count_organism_unclassifiable c organism E). apply IH.
Qed.

(** X25: the statistics loop skips strings that are not genotypes: the
    counters of a generation, and with them its row in the six series,
    are those of the generation without such strings. *)
Theorem statistics_skip_unclassifiable (generation : list string) :
  count_generation generation = count_generation (List.filter classifiable generation)
  /\ statistics [generation] = statistics [List.filter classifiable generation].
Proof.
  assert (Hcount : count_generation generation
                   = count_generation (List.filter classifiable generation))
    by apply fold_count_filter.
  split; [exact Hcount |].
  rewrite !statistics_ok. cbn [fold_left]. unfold append_row, genotype_total, allele_total.
  rewrite <- Hcount. reflexivity.
Qed.

(** ** Fixation *)

Lemma fixed_for_sublist a population population' :
  population' `sublist_of` population -> fixed_for a population -> fixed_for a population'.
Proof.
  unfold fixed_for. rewrite !Forall_forall. intros Hsub Hfix organism Hin.
  apply Hfix. exact (sublist_subseteq _ _ Hsub _ Hin).
Qed.

(** A new organism is the child of two members of the population. *)
Lemma produce_offspring_child population l1 l2 pairnum offspringnum NEW w NEW' w' :
  produce_offspring population l1 l2 pairnum offspringnum NEW w = Ok (NEW', w') ->
  exists p1 p2 child,
    p1 ∈ population /\ p2 ∈ population
    /\ generateOffspring p1 p2 w = Ok (child, w')
    /\ NEW' = NEW ++ [child].
Proof.
  unfold produce_offspring, getitem. intros H.
  apply bind_Ok in H. destruct H as (i1 & w1 & H1 & H).
  destruct (l1 !! pairnum); [| discriminate H1]. apply ret_Ok in H1. injection H1 as <- <-.
  apply bind_Ok in H. destruct H as (p1 & w2 & H2 & H).
  destruct (population !! i1) as [q1 |] eqn:Hq1; [| discriminate H2].
  apply ret_Ok in H2. injection H2 as <- <-.
  apply bind_Ok in H. destruct H as (i2 & w3 & H3 & H).
  destruct (l2 !! pairnum); [| discriminate H3]. apply ret_Ok in H3. injection H3 as <- <-.
  apply bind_Ok in H. destruct H as (p2 & w4 & H4 & H).
  destruct (population !! i2) as [q2 |] eqn:Hq2; [| discriminate H4].
  apply ret_Ok in H4. injection H4 as <- <-.
  apply bind_Ok in H. destruct H as (child & w5 & Hchild & H).
  apply ret_Ok in H. injection H as -> ->.
  exists p1, p2, child. split; [exact (list_elem_of_lookup_2 _ _ _ Hq1) |].
  split; [exact (list_elem_of_lookup_2 _ _ _ Hq2) |]. split; [exact Hchild | reflexivity].
Qed.

Lemma reproduce_fixed P a population l1 l2 w NEW w' :
  is_allele a -> fixed_for a population ->
  reproduce P population l1 l2 w = Ok (NEW, w') ->
  fixed_for a NEW.
Proof.
  intros Ha Hfix. unfold reproduce. intros Hrun.
  refine (for_each_invariant (fun _ s _ => fixed_for a s) _ _ 0%nat _ _ _ _ _ _ Hrun);
    [| constructor].
  intros i pairnum s1 w1 s2 w2 _ Hs1 Hpair. unfold mate_pair in Hpair.
  apply bind_Ok in Hpair. destruct Hpair as (n & w3 & _ & Hloop).
  refine (for_each_invariant (fun _ s _ => fixed_for a s) _ _ 0%nat _ _ _ _ _ _ Hloop);
    [| exact Hs1].
  intros j offspringnum s3 w4 s4 w5 _ Hs3 Hbody.
  apply produce_offspring_child in Hbody as (p1 & p2 & child & Hp1 & Hp2 & Hchild & ->).
  unfold fixed_for in Hfix. rewrite Forall_forall in Hfix.
  rewrite (Hfix p1 Hp1), (Hfix p2 Hp2), (homozygous_child a a w4 Ha Ha) in Hchild.
  injection Hchild as <- _.
  apply Forall_app. split; [exact Hs3 |]. constructor; [reflexivity | constructor].
Qed.

(** X26: there is no mutation: once every organism is homozygous for
    the same allele, every generation recorded from then on and the
    population left at the end consist of that genotype only. *)
Theorem fixation_is_permanent (P : Params) (fuel : nat) (n : Z) (a : string)
    st w st' w' :
  is_allele a ->
  fixed_for a (CURRENT_POPULATION st) ->
  run_generations P fuel n st w = Ok (st', w') ->
  fixed_for a (CURRENT_POPULATION st')
  /\ exists later,
       GENERATIONAL_DATA st' = GENERATIONAL_DATA st ++ later
       /\ Forall (fixed_for a) later.
Proof.
  intros Ha Hfix. unfold run_generations. intros Hrun.
  refine (for_each_invariant
            (fun _ s _ => fixed_for a (CURRENT_POPULATION s)
                          /\ exists later,
                               GENERATIONAL_DATA s = GENERATIONAL_DATA st ++ later
                               /\ Forall (fixed_for a) later)
            _ _ 0%nat _ _ _ _ _ _ Hrun).
  - intros i num s1 w1 s2 w2 _ (Hcur & later & Hdata & Hlater) Hgen.
    destruct (generation_steps _ _ _ _ _ _ _ Hgen)
      as (population & l1 & l2 & w3 & w4 & Hnew & Hsub & _ & _ & Hrepr).
    pose proof (fixed_for_sublist a _ _ Hsub Hcur) as Hpop.
    split; [exact (reproduce_fixed P a _ _ _ _ _ _ Ha Hpop Hrepr) |].
    exists (later ++ [population]). split.
    + rewrite Hnew, Hdata, app_assoc. reflexivity.
    + apply Forall_app. split; [exact Hlater |]. constructor; [exact Hpop | constructor].
  - split; [exact Hfix |]. exists []. split; [rewrite app_nil_r; reflexivity | constructor].
Qed.

Lemma fixation_is_permanent_witness :
  match run_generations demo_params 10 2
          {| CURRENT_POPULATION := ["aa"; "aa"; "aa"; "aa"; "aa"];
             GENERATIONAL_DATA := [] |} demo_world with
  | Ok (st, _) =>
      fixed_for "a" (CURRENT_POPULATION st)
      /\ exists later, GENERATIONAL_DATA st = [] ++ later /\ Forall (fixed_for "a") later
  | _ => False
  end.
Proof.
  pose proof (fixation_is_permanent demo_params 10%nat 2 "a"
                {| CURRENT_POPULATION := ["aa"; "aa"; "aa"; "aa"; "aa"];
                   GENERATIONAL_DATA := [] |} demo_world) as H.
  destruct (run_generations demo_params 10 2 _ demo_world) as [[st w'] | e |] eqn:E.
  - apply (H st w' ltac:(right; reflexivity) ltac:(repeat constructor) eq_refl).
  - vm_compute in E. discriminate E.
  - vm_compute in E. discriminate E.
Defined.
